(** * BlackHole: a NASA image gallery (Mars, Home, EPIC, APOD pages)

    Shallow embedding of the state-handling code of the four page
    components ([src/page/Mars.tsx], which also carries the Home and
    EPIC components, and [src/page/Apod.tsx]) and the properties the
    specification states about them.

    Conventions of the embedding.

    - A React state cell is a record field; a [setX] call is a field
      update. Every [setX] of the modelled handlers is either absolute
      or an updater function of the previous value, so the order of the
      calls is the order of the updates.
    - An [async] function is split at its single [await]: the code before
      it runs when the function is called ([*_begin]), the code after it
      runs when the awaited promise settles ([*_resume]), with the
      settled [outcome] as input. A rejected promise throws at the
      [await], inside the [try] block.
    - [try]/[catch]/[finally] and early [return] are run in a small
      completion monad ([act]).
    - JS numbers that hold array indices are [Z]; the request counter of
      the Mars loader counts calls from 0 and is a [nat] (a JS number is
      exact on integers below 2^53).
    - [Math.random()] is the [k]-th value of an oracle [random : nat -> Q];
      the number of calls made so far is part of the state.
    - [console.error] only writes to the console and is not modelled.
    - A text that the code only stores, compares or concatenates is a
      [string]. The search term, which the code trims, is the list of its
      UTF-16 code units. [buildEpicUrl] cuts a date at ten units; its
      model cuts at ten bytes, which is the same for an ASCII date. *)

From Stdlib Require Import ZArith QArith Qround Lia Ascii.
From Stdlib Require Import Permutation Sorted.
From stdpp Require Import base option list gmap strings.

Local Open Scope Z_scope.

(* ===================================================================== *)
(** * JavaScript values and arrays *)
(* ===================================================================== *)

Module Js.

(** [a[i]] for a number [i]: [undefined] ([None]) outside [0 .. length-1]. *)
Definition index {T : Type} (a : list T) (i : Z) : option T :=
  if decide (0 <= i) then a !! Z.to_nat i else None.

(** [x % n] for [n] other than 0: the remainder that takes the sign of the
    dividend. ([x % 0] is [NaN]; every use below is guarded by a test that
    the list is not empty.) *)
Definition rem (x n : Z) : Z := Z.rem x n.

(** [arr.slice(0, n)] for [n >= 0]. *)
Definition slice0 {T : Type} (n : nat) (a : list T) : list T := take n a.

(** [Math.floor(r * n)] for a value [r] of [Math.random()]. *)
Definition floor_mul (r : Q) (n : Z) : Z := Qfloor (r * inject_Z n).

(** [Math.random()] returns a number in [0, 1). *)
Definition unit_interval (random : nat -> Q) : Prop :=
  forall k, (0 <= random k)%Q /\ (random k < 1)%Q.

(** [arr.findIndex(pred)]: the first index whose element satisfies [pred],
    -1 when there is none. [i] is the index of the head of [a]. *)
Fixpoint findIndex_from {T : Type} (pred : T -> bool) (a : list T) (i : Z) : Z :=
  match a with
  | [] => -1
  | x :: a' => if pred x then i else findIndex_from pred a' (i + 1)
  end.
Definition findIndex {T : Type} (pred : T -> bool) (a : list T) : Z :=
  findIndex_from pred a 0.

(** The UTF-16 code units of a text of ASCII characters. *)
Definition units (s : string) : list N := N_of_ascii <$> String.list_ascii_of_string s.

(** A settled promise. *)
Inductive outcome (A : Type) : Type :=
  | Fulfilled (v : A)
  | Rejected.
Arguments Fulfilled {A} v.
Arguments Rejected {A}.

(** How a block of statements completes. *)
Inductive completion (A : Type) : Type :=
  | Normal (a : A)
  | Return
  | Throw.
Arguments Normal {A} a.
Arguments Return {A}.
Arguments Throw {A}.

(** A block of statements over a state [S]. [None]: the run leaves the
    model (an array would get a hole, see [swap]). *)
Definition act (S A : Type) : Type := S -> option (completion A * S).

Definition ret {S A} (a : A) : act S A := fun s => Some (Normal a, s).

Definition bind {S A B} (m : act S A) (f : A -> act S B) : act S B :=
  fun s =>
    match m s with
    | None => None
    | Some (Normal a, s') => f a s'
    | Some (Return, s') => Some (Return, s')
    | Some (Throw, s') => Some (Throw, s')
    end.

Definition get {S} : act S S := fun s => Some (Normal s, s).
Definition modify {S} (f : S -> S) : act S unit := fun s => Some (Normal tt, f s).
Definition return_ {S A} : act S A := fun s => Some (Return, s).
Definition throw {S A} : act S A := fun s => Some (Throw, s).

(** [await p] once [p] has settled with [o]. *)
Definition await {S A} (o : outcome A) : act S A :=
  match o with
  | Fulfilled v => ret v
  | Rejected => throw
  end.

(** A computation that may leave the model, run inside a block. *)
Definition lift_option {S A} (f : S -> option (A * S)) : act S A :=
  fun s => match f s with
           | Some (a, s') => Some (Normal a, s')
           | None => None
           end.

(** [try { body } catch (e) { handler } finally { final }]. The handler
    runs when the body throws; the final block always runs, and its own
    abrupt completion, if any, replaces the one of the body or handler. *)
Definition try_catch_finally {S} (body handler final : act S unit) : act S unit :=
  fun s =>
    match body s with
    | None => None
    | Some (c, s1) =>
        let after_catch :=
          match c with
          | Throw => handler s1
          | _ => Some (c, s1)
          end in
        match after_catch with
        | None => None
        | Some (c2, s2) =>
            match final s2 with
            | None => None
            | Some (Normal _, s3) => Some (c2, s3)
            | Some (c3, s3) => Some (c3, s3)
            end
        end
    end.

(** An [async] function body run to its end: a [return] ends it normally. *)
Definition run_async {S} (m : act S unit) (s : S) : option (completion unit * S) :=
  match m s with
  | Some (Return, s') => Some (Normal tt, s')
  | r => r
  end.

End Js.

Global Instance act_ret {S} : MRet (Js.act S) := fun A a => Js.ret a.
Global Instance act_bind {S} : MBind (Js.act S) := fun A B f m => Js.bind m f.

(* ===================================================================== *)
(** * [shuffle] (Mars.tsx lines 58-65, and its copy in the Home component) *)
(* ===================================================================== *)

Module Shuffle.
Section Shuffle.
Context {T : Type}.

(** The values of [Math.random()], in call order. *)
Variable random : nat -> Q.

(** [[a[i], a[j]] = [a[j], a[i]]]: both reads, then [a[i] = ...], then
    [a[j] = ...]. A read outside the array gives [undefined] and the
    write that follows would leave a hole: [None]. *)
Definition swap (a : list T) (i j : Z) : option (list T) :=
  match Js.index a i, Js.index a j with
  | Some x, Some y => Some (<[Z.to_nat j := x]> (<[Z.to_nat i := y]> a))
  | _, _ => None
  end.

(** [for (let i = ...; i > 0; i--) { j = Math.floor(Math.random() * (i + 1)); swap }].
    [k] counts the calls of [Math.random] made so far. *)
Fixpoint shuffle_loop (i : nat) (a : list T) (k : nat) : option (list T * nat) :=
  match i with
  | O => Some (a, k)
  | S i' =>
      let j := Js.floor_mul (random k) (Z.of_nat i + 1) in
      match swap a (Z.of_nat i) j with
      | Some a' => shuffle_loop i' a' (S k)
      | None => None
      end
  end.

(** [shuffle(arr)] on the contents of the arrays: the contents of the
    returned array and the new call count. *)
Definition shuffle (arr : list T) (k : nat) : option (list T * nat) :=
  shuffle_loop (length arr - 1)%nat arr k.

(** ** The same function over a store of arrays

    Arrays are objects: [heap] maps a reference to the contents of the
    array it denotes, and [shuffle] receives the reference [arr]. *)
Abbreviation loc := nat (only parsing).
Abbreviation heap := (gmap nat (list T)) (only parsing).

(** [[...arr]]: a new array with the elements of [arr]. *)
Definition spread (h : heap) (arr : loc) : option (loc * heap) :=
  match h !! arr with
  | Some l => let a := fresh (dom h) in Some (a, <[a := l]> h)
  | None => None
  end.

(** The swap, done in place on the array at [a]. *)
Definition swap_at (h : heap) (a : loc) (i j : Z) : option heap :=
  match h !! a with
  | Some l =>
      match swap l i j with
      | Some l' => Some (<[a := l']> h)
      | None => None
      end
  | None => None
  end.

Fixpoint shuffle_loop_at (i : nat) (a : loc) (h : heap) (k : nat) : option (heap * nat) :=
  match i with
  | O => Some (h, k)
  | S i' =>
      let j := Js.floor_mul (random k) (Z.of_nat i + 1) in
      match swap_at h a (Z.of_nat i) j with
      | Some h' => shuffle_loop_at i' a h' (S k)
      | None => None
      end
  end.

(** [shuffle(arr)]: the reference returned, the store and the call count. *)
Definition shuffle_ref (h : heap) (arr : loc) (k : nat) : option (loc * heap * nat) :=
  match spread h arr with
  | Some (a, h1) =>
      match h1 !! a with
      | Some l =>
          match shuffle_loop_at (length l - 1)%nat a h1 k with
          | Some (h2, k') => Some (a, h2, k')
          | None => None
          end
      | None => None
      end
  | None => None
  end.

End Shuffle.
End Shuffle.

(* ===================================================================== *)
(** * The Mars page (Mars.tsx lines 1-377) *)
(* ===================================================================== *)

Module Mars.

Record Photo := { id : Z; img_src : string; camera_name : string }.

Inductive Rover := Curiosity | Opportunity | Spirit.

Global Instance Rover_eq_dec : EqDecision Rover.
Proof. solve_decision. Defined.

(** The [abbreviation] fields of [CameraOptions]. *)
Definition CameraOptions (r : Rover) : list string :=
  match r with
  | Curiosity => ["FHAZ"; "RHAZ"; "MAST"; "CHEMCAM"; "MAHLI"; "MARDI"; "NAVCAM"]
  | Opportunity => ["FHAZ"; "RHAZ"; "NAVCAM"; "PANCAM"; "MINITES"]
  | Spirit => ["FHAZ"; "RHAZ"; "NAVCAM"; "PANCAM"; "MINITES"]
  end%string.

Definition ROVERS : list Rover := [Curiosity; Opportunity; Spirit].

Definition MAX_SOL (r : Rover) : Z :=
  match r with
  | Curiosity => 3500
  | Opportunity => 5111
  | Spirit => 2208
  end.

Record Params := { sol : Z; camera : string; rover : Rover }.

Global Instance Params_eq_dec : EqDecision Params.
Proof. solve_decision. Defined.

(** What [fetchPhotos] resolves to: an array of photos, or something
    that [Array.isArray] rejects. *)
Inductive Fetched :=
  | JArray (l : list Photo)
  | JOther.

Record State := {
  photos : list Photo;
  selected : option Z;
  loading : bool;
  err : string;
  params : Params;
  requestIdRef : nat;
  rng : nat
}.

Definition initial : State :=
  {| photos := []; selected := None; loading := false; err := "";
     params := {| sol := 1000; camera := "FHAZ"; rover := Curiosity |};
     requestIdRef := 0; rng := 0 |}.

Definition setPhotos (l : list Photo) (s : State) : State :=
  {| photos := l; selected := selected s; loading := loading s; err := err s;
     params := params s; requestIdRef := requestIdRef s; rng := rng s |}.
Definition setSelected (i : option Z) (s : State) : State :=
  {| photos := photos s; selected := i; loading := loading s; err := err s;
     params := params s; requestIdRef := requestIdRef s; rng := rng s |}.
Definition setLoading (b : bool) (s : State) : State :=
  {| photos := photos s; selected := selected s; loading := b; err := err s;
     params := params s; requestIdRef := requestIdRef s; rng := rng s |}.
Definition setErr (e : string) (s : State) : State :=
  {| photos := photos s; selected := selected s; loading := loading s; err := e;
     params := params s; requestIdRef := requestIdRef s; rng := rng s |}.
Definition setParams (p : Params) (s : State) : State :=
  {| photos := photos s; selected := selected s; loading := loading s; err := err s;
     params := p; requestIdRef := requestIdRef s; rng := rng s |}.
Definition setRequestId (n : nat) (s : State) : State :=
  {| photos := photos s; selected := selected s; loading := loading s; err := err s;
     params := params s; requestIdRef := n; rng := rng s |}.
Definition setRng (k : nat) (s : State) : State :=
  {| photos := photos s; selected := selected s; loading := loading s; err := err s;
     params := params s; requestIdRef := requestIdRef s; rng := k |}.

(** [selected != null ? photos[selected] : photos[0]] *)
Definition currentPhoto (ph : list Photo) (sel : option Z) : option Photo :=
  match sel with
  | Some i => Js.index ph i
  | None => Js.index ph 0
  end.

Definition fetch_error : string :=
  "Impossible de récupérer les photos pour ces paramètres.".

(** [Array.isArray(fetched) ? fetched : []] *)
Definition as_list (fetched : Fetched) : list Photo :=
  match fetched with
  | JArray l => l
  | JOther => []
  end.

(** [loadPhotos], up to the [await]: [const id = ++requestIdRef.current],
    [setLoading(true)], [setErr("")], and the call of [fetchPhotos(p)],
    whose promise is then in flight under the tag [id]. *)
Definition loadPhotos_begin (s : State) : nat * State :=
  let id := S (requestIdRef s) in
  (id, setErr "" (setLoading true (setRequestId id s))).

(** [loadPhotos] from the [await] on, for the call tagged [id], once its
    promise has settled. *)
Definition loadPhotos_resume (id : nat) (o : Js.outcome Fetched) : Js.act State unit :=
  Js.try_catch_finally
    (fetched ← Js.await o;
     s ← Js.get;
     if decide (requestIdRef s ≠ id) then Js.return_ else
     let list := as_list fetched in
     Js.modify (setPhotos list);;
     Js.modify (setSelected (if decide (length list = 0%nat) then None else Some 0)))
    (s ← Js.get;
     if decide (requestIdRef s ≠ id) then Js.return_ else
     Js.modify (setErr fetch_error))
    (s ← Js.get;
     if decide (requestIdRef s = id) then Js.modify (setLoading false) else mret tt).

(** ** The page with its requests in flight *)

(** [tags] records the tag of every call so far, in call order. *)
Record Sys := { st : State; inflight : list nat; tags : list nat }.

Inductive Event :=
  | Call (p : Params)                          (* loadPhotos(p) is called *)
  | Settle (id : nat) (o : Js.outcome Fetched). (* the promise of call [id] settles *)

(** One event. [None]: no call tagged [id] is in flight, or the handler
    ends by throwing or leaves the model. *)
Definition step (y : Sys) (e : Event) : option Sys :=
  match e with
  | Call p =>
      let '(id, s') := loadPhotos_begin (st y) in
      Some {| st := s'; inflight := id :: inflight y; tags := tags y ++ [id] |}
  | Settle id o =>
      if decide (id ∈ inflight y) then
        match Js.run_async (loadPhotos_resume id o) (st y) with
        | Some (Js.Normal _, s') =>
            Some {| st := s'; inflight := filter (fun x => x ≠ id) (inflight y);
                    tags := tags y |}
        | _ => None
        end
      else None
  end.

Fixpoint run (y : Sys) (tr : list Event) : option Sys :=
  match tr with
  | [] => Some y
  | e :: tr' =>
      match step y e with
      | Some y' => run y' tr'
      | None => None
      end
  end.

Definition start : Sys := {| st := initial; inflight := []; tags := [] |}.

(** ** Parameter handlers (lines 116-130) *)

Definition handleRoverChange (r : Rover) (s : State) : State :=
  let firstCam := default "FHAZ"%string (CameraOptions r !! 0%nat) in
  setParams {| sol := sol (params s); camera := firstCam; rover := r |} s.

Definition handleCameraChange (c : string) (s : State) : State :=
  setParams {| sol := sol (params s); camera := c; rover := rover (params s) |} s.

(** [v] is [Number(event.target.value || 0)], for an integral input. *)
Definition handleSolInput (v : Z) (s : State) : State :=
  let n := Z.max 0 (Z.min v (MAX_SOL (rover (params s)))) in
  setParams {| sol := n; camera := camera (params s); rover := rover (params s) |} s.

(** ** The debounced auto-load (lines 110-114)

    Time is a number of milliseconds. The effect depends on
    [params.rover], [params.camera] and [params.sol], which are all the
    fields of [params]: it is re-run by a render exactly when [params]
    differs from the value it had at the previous run. *)

Record Timer := { deadline : Z; captured : Params }.

Inductive Log :=
  | Fetch (at_time : Z) (p : Params)      (* the timer ran [loadPhotos(p)] *)
  | Cleared (at_time : Z) (tm : Timer).   (* [clearTimeout] removed a pending timer *)

(** The component and the timers of the browser. Every [setTimeout]
    makes a timer of its own, known by the handle it returns; a timer
    stays in [timers] until it runs or is cleared. [cleanup_handle] is
    the handle [t] that the cleanup function of the last effect run
    holds, while that function has not been called. *)
Record Debounce := {
  deps : Params;
  cleanup_handle : option nat;
  timers : list (nat * Timer);
  next_handle : nat;
  log : list Log
}.

(** [const t = setTimeout(() => loadPhotos(params), 500); return () =>
    clearTimeout(t)] at time [t], in a render whose [params] is [p]. *)
Definition effect (t : Z) (p : Params) (d : Debounce) : Debounce :=
  {| deps := p;
     cleanup_handle := Some (next_handle d);
     timers := timers d ++ [(next_handle d, {| deadline := t + 500; captured := p |})];
     next_handle := S (next_handle d);
     log := log d |}.

(** The cleanup function is called at time [t]: [clearTimeout(t)] removes
    the timer with that handle, if it is still there; the other timers
    stay. *)
Definition cleanup (t : Z) (d : Debounce) : Debounce :=
  match cleanup_handle d with
  | Some h =>
      {| deps := deps d;
         cleanup_handle := None;
         timers := filter (fun e => fst e ≠ h) (timers d);
         next_handle := next_handle d;
         log := log d ++ (Cleared t ∘ snd <$> filter (fun e => fst e = h) (timers d)) |}
  | None => d
  end.

(** Time reaches [t]: the timers whose delay has elapsed run, oldest
    first (all delays are equal, so this is the order of the deadlines). *)
Definition elapse (t : Z) (d : Debounce) : Debounce :=
  {| deps := deps d;
     cleanup_handle := cleanup_handle d;
     timers := filter (fun e => ¬ deadline (snd e) <= t) (timers d);
     next_handle := next_handle d;
     log := log d ++ ((fun e => Fetch (deadline (snd e)) (captured (snd e)))
                        <$> filter (fun e => deadline (snd e) <= t) (timers d)) |}.

(** The first render, at time [t]. *)
Definition mount (t : Z) (p : Params) : Debounce :=
  effect t p {| deps := p; cleanup_handle := None; timers := []; next_handle := 1;
                log := [] |}.

(** A later render at time [t] with [params = p]: when a dependency has
    changed, the cleanup of the previous run is called and the effect
    runs again. *)
Definition render (t : Z) (p : Params) (d : Debounce) : Debounce :=
  let d1 := elapse t d in
  if decide (p = deps d1) then d1 else effect t p (cleanup t d1).

Definition renders (d : Debounce) (cs : list (Z * Params)) : Debounce :=
  fold_left (fun d c => render (fst c) (snd c) d) cs d.

(** ** Shuffle button, lightbox navigation and hero (lines 139-155, 254-372) *)

Definition shuffleOrder (random : nat -> Q) (s : State) : option State :=
  match Shuffle.shuffle random (photos s) (rng s) with
  | Some (l, k) => Some (setRng k (setPhotos l s))
  | None => None
  end.

(** [i == null ? i : (i - 1 + photos.length) % photos.length] *)
Definition previous (n : Z) (i : option Z) : option Z :=
  match i with
  | None => None
  | Some i => Some (Js.rem (i - 1 + n) n)
  end.

(** [i == null ? i : (i + 1) % photos.length] *)
Definition next (n : Z) (i : option Z) : option Z :=
  match i with
  | None => None
  | Some i => Some (Js.rem (i + 1) n)
  end.

Inductive Key := ArrowLeft | ArrowRight | Escape | OtherKey.

Definition onKey (k : Key) (s : State) : State :=
  let n := Z.of_nat (length (photos s)) in
  if decide (n = 0 \/ selected s = None) then s else
  match k with
  | ArrowLeft => setSelected (previous n (selected s)) s
  | ArrowRight => setSelected (next n (selected s)) s
  | Escape => setSelected None s
  | OtherKey => s
  end.

(** [selected != null && photos[selected]]: the lightbox, with its
    buttons, is rendered. *)
Definition lightbox_open (s : State) : bool :=
  match selected s with
  | Some i => bool_decide (is_Some (Js.index (photos s) i))
  | None => false
  end.

Definition clickPrevious (s : State) : State :=
  if lightbox_open s
  then setSelected (previous (Z.of_nat (length (photos s))) (selected s)) s
  else s.

Definition clickNext (s : State) : State :=
  if lightbox_open s
  then setSelected (next (Z.of_nat (length (photos s))) (selected s)) s
  else s.

Inductive Hero :=
  | HeroSkeleton
  | HeroPhoto (p : Photo)
  | HeroEmpty.

(** [loading ? skeleton : currentPhoto ? hero : empty-state paragraph] *)
Definition hero (s : State) : Hero :=
  if loading s then HeroSkeleton
  else match currentPhoto (photos s) (selected s) with
       | Some p => HeroPhoto p
       | None => HeroEmpty
       end.

(** ** Random parameters, clicks on the hero, the grid and the lightbox
       (lines 55-57, 132-138, 265-267, 299-303, 324-344) *)

(** [randInt(max)]: the number drawn and the new count of [Math.random] calls. *)
Definition randInt (random : nat -> Q) (max : Z) (k : nat) : Z * nat :=
  (Js.floor_mul (random k) (max + 1), S k).

(** [surprise]. [None]: an index fell outside its array and the handler
    threw a [TypeError] ([CameraOptions[undefined]] has no [length],
    [cams[...]] has no [abbreviation]). *)
Definition surprise (random : nat -> Q) (s : State) : option State :=
  let '(r, k1) := randInt random (Z.of_nat (length ROVERS) - 1) (rng s) in
  match Js.index ROVERS r with
  | Some rv =>
      let cams := CameraOptions rv in
      let '(c, k2) := randInt random (Z.of_nat (length cams) - 1) k1 in
      match Js.index cams c with
      | Some cam =>
          let '(sl, k3) := randInt random (MAX_SOL rv) k2 in
          Some (setRng k3 (setParams {| sol := sl; camera := cam; rover := rv |} s))
      | None => None
      end
  | None => None
  end.

(** Click on the hero image, which is there when the hero shows a photo:
    [setSelected(photos.findIndex((p) => p.id === currentPhoto.id))]. *)
Definition heroClick (s : State) : State :=
  match hero s with
  | HeroPhoto cur =>
      setSelected (Some (Js.findIndex (fun p => bool_decide (id p = id cur)) (photos s))) s
  | _ => s
  end.

(** Click on the [i]-th card of the grid, which is there when the page is
    not loading and [i] is an index of [photos]: [setSelected(i)]. *)
Definition gridClick (i : nat) (s : State) : State :=
  if loading s then s
  else if decide (i < length (photos s))%nat then setSelected (Some (Z.of_nat i)) s
  else s.

(** Click on the backdrop or on the close button of the lightbox:
    [setSelected(null)]. *)
Definition closeLightbox (s : State) : State :=
  if lightbox_open s then setSelected None s else s.

(** The component unmounts at time [t]: the cleanup of the effect runs. *)
Definition unmount (t : Z) (d : Debounce) : Debounce := cleanup t d.

End Mars.

(* ===================================================================== *)
(** * The Home page (Mars.tsx lines 378-596) *)
(* ===================================================================== *)

Module Home.

Record HomeData := { title : string; url : string }.

Global Instance HomeData_eq_dec : EqDecision HomeData.
Proof. solve_decision. Defined.

(** An item of the search response: [data?: { title?: string }[]] and
    [links?: { href?: string }[]]. *)
Record Item := { data : option (list (option string)); links : option (list (option string)) }.

Definition SEED_TOPICS : list string :=
  ["mars"; "moon"; "jupiter"; "saturn"; "earth"; "galaxy"; "nebula"; "supernova";
   "apollo"; "hubble"; "iss"; "orion"; "black hole"; "eclipse"; "comet"].

(** [x || d] on an optional string: [undefined] and [""] are falsy. *)
Definition or_else (x : option string) (d : string) : string :=
  match x with
  | Some s => if decide (s = "") then d else s
  | None => d
  end.

(** [it.data?.[0]?.title] and [it.links?.[0]?.href] *)
Definition first_of (x : option (list (option string))) : option string :=
  match x with
  | Some (Some s :: _) => Some s
  | _ => None
  end.

(** The array that [searchImages] builds from the items of the response:
    [items.map(...).filter((x) => x.url)]. *)
Definition searchImages_items (items : list Item) : list HomeData :=
  filter (fun x => url x ≠ "")
    ((fun it => {| title := or_else (first_of (data it)) "Untitled";
                   url := or_else (first_of (links it)) "" |}) <$> items).

(** [searchImages] once [axios.get] has settled; the payload is
    [data?.collection?.items], absent ([None]) when that chain is nullish. *)
Definition searchImages (response : Js.outcome (option (list Item))) : Js.outcome (list HomeData) :=
  match response with
  | Js.Fulfilled (Some items) => Js.Fulfilled (searchImages_items items)
  | Js.Fulfilled None => Js.Fulfilled []
  | Js.Rejected => Js.Rejected
  end.

(** [Promise.all]: fulfilled with all the values, rejected if one is. *)
Fixpoint Promise_all {A} (ps : list (Js.outcome A)) : Js.outcome (list A) :=
  match ps with
  | [] => Js.Fulfilled []
  | Js.Fulfilled v :: ps' =>
      match Promise_all ps' with
      | Js.Fulfilled vs => Js.Fulfilled (v :: vs)
      | Js.Rejected => Js.Rejected
      end
  | Js.Rejected :: _ => Js.Rejected
  end.

(** ** The JS [Map], an insertion-ordered list of entries *)

(** [map.set(k, v)]: an existing key keeps its place and takes the new
    value; a new key goes to the end. *)
Fixpoint Map_set {V} (k : string) (v : V) (m : list (string * V)) : list (string * V) :=
  match m with
  | [] => [(k, v)]
  | (k', v') :: m' =>
      if decide (k' = k) then (k', v) :: m' else (k', v') :: Map_set k v m'
  end.

(** [new Map(entries)]: the entries are [set] one after the other. *)
Definition Map_new {V} (entries : list (string * V)) : list (string * V) :=
  fold_left (fun m e => Map_set (fst e) (snd e) m) entries [].

(** [Array.from(map.values())] *)
Definition Map_values {V} (m : list (string * V)) : list V := snd <$> m.

(** [Array.from(new Map(results.flat().map((x) => [x.url, x])).values())] *)
Definition unique_by_url (results : list (list HomeData)) : list HomeData :=
  Map_values (Map_new ((fun x => (url x, x)) <$> concat results)).

(** [shuffle(...).slice(0, 15)] of the above. *)
Definition merge (random : nat -> Q) (results : list (list HomeData)) (k : nat)
  : option (list HomeData * nat) :=
  match Shuffle.shuffle random (unique_by_url results) k with
  | Some (l, k') => Some (Js.slice0 15 l, k')
  | None => None
  end.

(** [pickN(arr, n)] *)
Definition pickN {T} (random : nat -> Q) (arr : list T) (n : nat) (k : nat)
  : option (list T * nat) :=
  match Shuffle.shuffle random arr k with
  | Some (l, k') => Some (Js.slice0 n l, k')
  | None => None
  end.

(** ** The component *)

Record State := {
  shown : list HomeData;      (* the [data] state *)
  searchTerm : list N;       (* the UTF-16 code units of the term *)
  loading : bool;
  err : string;
  rng : nat
}.

Definition initial : State :=
  {| shown := []; searchTerm := []; loading := true; err := ""; rng := 0 |}.

Definition setData (l : list HomeData) (s : State) : State :=
  {| shown := l; searchTerm := searchTerm s; loading := loading s; err := err s; rng := rng s |}.
Definition setSearchTerm (q : list N) (s : State) : State :=
  {| shown := shown s; searchTerm := q; loading := loading s; err := err s; rng := rng s |}.
Definition setLoading (b : bool) (s : State) : State :=
  {| shown := shown s; searchTerm := searchTerm s; loading := b; err := err s; rng := rng s |}.
Definition setErr (e : string) (s : State) : State :=
  {| shown := shown s; searchTerm := searchTerm s; loading := loading s; err := e; rng := rng s |}.
Definition setRng (k : nat) (s : State) : State :=
  {| shown := shown s; searchTerm := searchTerm s; loading := loading s; err := err s; rng := k |}.

Definition loadRandom_error : string := "Impossible de charger les images pour le moment.".
Definition surpriseMe_error : string := "Impossible de charger un nouveau set d’images.".
Definition search_error : string := "Recherche impossible. Réessaie avec un autre mot-clé.".

(** A call of [Math.random]-using code from inside a block. *)
Definition with_rng {A} (f : nat -> option (A * nat)) : Js.act State A :=
  Js.lift_option (fun s => match f (rng s) with
                           | Some (a, k) => Some (a, setRng k s)
                           | None => None
                           end).

(** [loadRandom] up to the [await] of [Promise.all(initialTopics.map(searchImages))]. *)
Definition loadRandom_begin (s : State) : State := setErr "" (setLoading true s).

(** [loadRandom] from the [await] on. *)
Definition loadRandom_resume (random : nat -> Q) (o : Js.outcome (list (list HomeData)))
  : Js.act State unit :=
  Js.try_catch_finally
    (results ← Js.await o;
     merged ← with_rng (merge random results);
     Js.modify (setData merged))
    (Js.modify (setErr loadRandom_error))
    (Js.modify (setLoading false)).

(** [surpriseMe] up to the [await]: the topics picked, and the state. *)
Definition surpriseMe_begin (random : nat -> Q) (s : State) : option (list string * State) :=
  match pickN random SEED_TOPICS 3 (rng s) with
  | Some (freshTopics, k) => Some (freshTopics, setErr "" (setLoading true (setRng k s)))
  | None => None
  end.

Definition surpriseMe_resume (random : nat -> Q) (o : Js.outcome (list (list HomeData)))
  : Js.act State unit :=
  Js.try_catch_finally
    (results ← Js.await o;
     merged ← with_rng (merge random results);
     Js.modify (setData merged))
    (Js.modify (setErr surpriseMe_error))
    (Js.modify (setLoading false)).

(** The code units that [trim] strips: the white space and line
    terminator code points of ECMAScript (TAB, LF, VT, FF, CR, SP, NBSP,
    U+1680, U+2000 to U+200A, U+2028, U+2029, U+202F, U+205F, U+3000 and
    U+FEFF), all of one unit. *)
Definition white_space : list N :=
  [9; 10; 11; 12; 13; 32; 160; 5760;
   8192; 8193; 8194; 8195; 8196; 8197; 8198; 8199; 8200; 8201; 8202;
   8232; 8233; 8239; 8287; 12288; 65279]%N.

Definition is_white_space (u : N) : bool := bool_decide (u ∈ white_space).

(** [s.trim()] *)
Fixpoint trim_start (s : list N) : list N :=
  match s with
  | u :: s' => if is_white_space u then trim_start s' else s
  | [] => []
  end.
Definition trim (s : list N) : list N :=
  reverse (trim_start (reverse (trim_start s))).

(** [handleSearchSubmit] up to the [await]: [None] when the trimmed term
    is empty and the function returns at once, else the query sent. *)
Definition handleSearchSubmit_begin (s : State) : option (list N * State) :=
  if decide (trim (searchTerm s) = []) then None
  else Some (trim (searchTerm s), setErr "" (setLoading true s)).

(** [handleSearchSubmit] from the [await] on: [setData(shuffle(items).slice(0, 18))]. *)
Definition handleSearchSubmit_resume (random : nat -> Q) (o : Js.outcome (list HomeData))
  : Js.act State unit :=
  Js.try_catch_finally
    (items ← Js.await o;
     shuffled ← with_rng (Shuffle.shuffle random items);
     Js.modify (setData (Js.slice0 18 shuffled)))
    (Js.modify (setErr search_error))
    (Js.modify (setLoading false)).

End Home.

(* ===================================================================== *)
(** * The EPIC page (Mars.tsx lines 597-784) *)
(* ===================================================================== *)

Module Epic.

Record EpicPageData := {
  caption : string;
  date : string;        (* "YYYY-MM-DD HH:MM:SS" *)
  image : string;
  identifier : string
}.

(** [s.split(c)] for a separator of one character. *)
Fixpoint split (c : ascii) (s : string) : list string :=
  match s with
  | EmptyString => [EmptyString]
  | String a s' =>
      if decide (a = c) then EmptyString :: split c s'
      else match split c s' with
           | seg :: segs => String a seg :: segs
           | [] => [String a EmptyString]
           end
  end.

(** [`${x}`] for a destructured array element: a missing one is [undefined]. *)
Definition interpolate (x : option string) : string := default "undefined" x.

(** [buildEpicUrl] (lines 610-614). [slice(0, 10)] takes ten UTF-16 code
    units and [String.substring 0 10] ten bytes: the two agree when the
    first ten bytes of the date are ASCII characters, which the
    statements about this function assume. *)
Definition buildEpicUrl (item : EpicPageData) : string :=
  let d := String.substring 0 10 (date item) in
  let parts := split "-"%char d in
  let yyyy := parts !! 0%nat in
  let mm := parts !! 1%nat in
  let dd := parts !! 2%nat in
  "https://epic.gsfc.nasa.gov/archive/natural/" +:+ interpolate yyyy +:+ "/" +:+
  interpolate mm +:+ "/" +:+ interpolate dd +:+ "/png/" +:+ image item +:+ ".png".

Record State := {
  data : list EpicPageData;
  loading : bool;
  error : string;
  index : Z;
  rng : nat
}.

Definition initial : State :=
  {| data := []; loading := true; error := ""; index := 0; rng := 0 |}.

Definition setData (l : list EpicPageData) (s : State) : State :=
  {| data := l; loading := loading s; error := error s; index := index s; rng := rng s |}.
Definition setLoading (b : bool) (s : State) : State :=
  {| data := data s; loading := b; error := error s; index := index s; rng := rng s |}.
Definition setError (e : string) (s : State) : State :=
  {| data := data s; loading := loading s; error := e; index := index s; rng := rng s |}.
Definition setIndex (i : Z) (s : State) : State :=
  {| data := data s; loading := loading s; error := error s; index := i; rng := rng s |}.
Definition setRng (k : nat) (s : State) : State :=
  {| data := data s; loading := loading s; error := error s; index := index s; rng := k |}.

(** [data.length > 0] *)
Definition hasData (s : State) : bool := bool_decide (0 < length (data s))%nat.

(** [hasData ? data[index] : null] *)
Definition current (s : State) : option EpicPageData :=
  if hasData s then Js.index (data s) (index s) else None.

Definition currentUrl (s : State) : string :=
  match current s with
  | Some c => buildEpicUrl c
  | None => ""
  end.

Definition fetch_error : string :=
  "Une erreur est survenue lors du chargement des images EPIC.".

Definition fetchData_begin (s : State) : State := setError "" (setLoading true s).

Definition fetchData_resume (o : Js.outcome (list EpicPageData)) : Js.act State unit :=
  Js.try_catch_finally
    (fetched ← Js.await o;
     Js.modify (setData fetched);;
     Js.modify (setIndex 0))
    (Js.modify (setError fetch_error))
    (Js.modify (setLoading false)).

(** [hasData && setIndex((i) => (i - 1 + data.length) % data.length)] *)
Definition prev (s : State) : State :=
  let n := Z.of_nat (length (data s)) in
  if hasData s then setIndex (Js.rem (index s - 1 + n) n) s else s.

(** [hasData && setIndex((i) => (i + 1) % data.length)] *)
Definition next (s : State) : State :=
  let n := Z.of_nat (length (data s)) in
  if hasData s then setIndex (Js.rem (index s + 1) n) s else s.

(** [hasData && setIndex(() => Math.floor(Math.random() * data.length))] *)
Definition surprise (random : nat -> Q) (s : State) : State :=
  let n := Z.of_nat (length (data s)) in
  if hasData s then setRng (S (rng s)) (setIndex (Js.floor_mul (random (rng s)) n) s) else s.

Inductive Key := ArrowLeft | ArrowRight | OtherKey.

Definition onKey (k : Key) (s : State) : State :=
  match k with
  | ArrowLeft => prev s
  | ArrowRight => next s
  | OtherKey => s
  end.

Inductive View :=
  | Skeleton
  | Detail (c : EpicPageData)
  | DetailThrows            (* [current!.caption] with [current] undefined *)
  | Empty.

(** [loading ? skeleton : hasData ? hero of current : empty-state paragraph] *)
Definition view (s : State) : View :=
  if loading s then Skeleton
  else if hasData s then
         match current s with
         | Some c => Detail c
         | None => DetailThrows
         end
       else Empty.

(** Click on the [i]-th thumbnail, which is there when the detail view is
    shown and [i] is an index of [data]: [setIndex(i)]. *)
Definition thumbnailClick (i : nat) (s : State) : State :=
  if loading s then s
  else if decide (i < length (data s))%nat then setIndex (Z.of_nat i) s
  else s.

End Epic.

(* ===================================================================== *)
(** * The APOD page (Apod.tsx) *)
(* ===================================================================== *)

Module Apod.

Inductive MediaType := image | video.

Record ApodPageData := {
  copyright : option string;
  date : string;
  explanation : string;
  hdurl : option string;
  url : string;
  title : string;
  media_type : MediaType
}.

Record State := { data : option ApodPageData; loading : bool; error : string }.

Definition initial : State := {| data := None; loading := true; error := "" |}.

Definition setData (d : option ApodPageData) (s : State) : State :=
  {| data := d; loading := loading s; error := error s |}.
Definition setLoading (b : bool) (s : State) : State :=
  {| data := data s; loading := b; error := error s |}.
Definition setError (e : string) (s : State) : State :=
  {| data := data s; loading := loading s; error := e |}.

Definition fetch_error : string := "Impossible de charger l’APOD pour le moment.".

Definition fetchData_begin (s : State) : State := setError "" (setLoading true s).

Definition fetchData_resume (o : Js.outcome ApodPageData) : Js.act State unit :=
  Js.try_catch_finally
    (res ← Js.await o;
     Js.modify (setData (Some res)))
    (Js.modify (setError fetch_error))
    (Js.modify (setLoading false)).

Inductive View :=
  | Skeleton
  | ImageLink (href : string)     (* the image, linked to the same address *)
  | VideoFrame (src : string)
  | NoData.

(** [loading ? skeleton : data ? (image ? data.hdurl ?? data.url : iframe of
    data.url) : no-data paragraph] *)
Definition view (s : State) : View :=
  if loading s then Skeleton
  else match data s with
       | Some d =>
           match media_type d with
           | image => ImageLink (default (url d) (hdurl d))
           | video => VideoFrame (url d)
           end
       | None => NoData
       end.

End Apod.

(* ===================================================================== *)
(** * Vocabulary of the statements *)
(* ===================================================================== *)

(** ** The Mars loader *)

(** What holds of the page after any run from the start: the calls so
    far carry the tags 1, 2, ..., [requestIdRef.current], and a call in
    flight carries one of them. *)
Definition tags_inv (y : Mars.Sys) : Prop :=
  Mars.tags y = seq 1 (Mars.requestIdRef (Mars.st y)) /\
  Forall (fun i => i ∈ Mars.tags y) (Mars.inflight y).

(** The latest tag handed out: the last element of [tags], 0 before the
    first call. *)
Definition latest (y : Mars.Sys) : nat := List.last (Mars.tags y) 0%nat.

(** What a settled promise does to the page when its result is applied. *)
Definition applied (o : Js.outcome Mars.Fetched) (s s' : Mars.State) : Prop :=
  match o with
  | Js.Fulfilled f =>
      Mars.photos s' = Mars.as_list f /\
      Mars.selected s' = (if decide (length (Mars.as_list f) = 0%nat) then None else Some 0) /\
      Mars.err s' = Mars.err s /\ Mars.loading s' = false
  | Js.Rejected =>
      Mars.photos s' = Mars.photos s /\ Mars.selected s' = Mars.selected s /\
      Mars.err s' = Mars.fetch_error /\ Mars.loading s' = false
  end.

(** An event that the page can receive in the state [y]: any call, and
    the settling of a call that is in flight. *)
Definition receivable (y : Mars.Sys) (e : Mars.Event) : Prop :=
  match e with
  | Mars.Call _ => True
  | Mars.Settle id _ => id ∈ Mars.inflight y
  end.

(** ** The debounce *)

(** A burst of changes after a change at time [t0] to [p0]: every item
    changes the parameters again, less than 500 ms after the one before. *)
Fixpoint rapid (t0 : Z) (p0 : Mars.Params) (cs : list (Z * Mars.Params)) : Prop :=
  match cs with
  | [] => True
  | c :: cs' => snd c ≠ p0 /\ t0 <= fst c < t0 + 500 /\ rapid (fst c) (snd c) cs'
  end.

(** The timers that such a burst clears: the one of each change, at the
    time of the next change. *)
Fixpoint cancellations (t0 : Z) (p0 : Mars.Params) (cs : list (Z * Mars.Params))
  : list Mars.Log :=
  match cs with
  | [] => []
  | c :: cs' =>
      Mars.Cleared (fst c) {| Mars.deadline := t0 + 500; Mars.captured := p0 |}
        :: cancellations (fst c) (snd c) cs'
  end.

Definition cleared_in_time (e : Mars.Log) : Prop :=
  match e with
  | Mars.Cleared t tm => t < Mars.deadline tm
  | Mars.Fetch _ _ => False
  end.

(** ** The EPIC date *)

Definition is_digit (a : ascii) : bool :=
  match Ascii.is_nat a with
  | Some _ => true
  | None => false
  end.

Fixpoint all_digits (s : string) : bool :=
  match s with
  | EmptyString => true
  | String a s' => is_digit a && all_digits s'
  end.

(** ** Deduplication by URL *)

(** Deduplication by URL as the specification words it: the first entry
    with a given URL is kept, the later ones are dropped. *)
Fixpoint first_wins (l : list Home.HomeData) : list Home.HomeData :=
  match l with
  | [] => []
  | x :: l' => x :: filter (fun y => Home.url y ≠ Home.url x) (first_wins l')
  end.

(** The last entry of [l] that has the URL of [y] ([y] itself if none). *)
Definition latest_record (l : list Home.HomeData) (y : Home.HomeData) : Home.HomeData :=
  default y (last (filter (fun z => Home.url z = Home.url y) l)).

(** ** The pages under user actions *)

(** The latest call is in flight exactly while the page says it is
    loading, and an error on display is the one of the latest call. *)
Definition loading_inv (y : Mars.Sys) : Prop :=
  (Mars.loading (Mars.st y) = true <-> Mars.requestIdRef (Mars.st y) ∈ Mars.inflight y) /\
  (Mars.err (Mars.st y) = "" \/
   (Mars.err (Mars.st y) = Mars.fetch_error /\
    Mars.requestIdRef (Mars.st y) ∉ Mars.inflight y)).

(** The query parameters are ones that the controls of the page offer. *)
Definition valid_params (p : Mars.Params) : Prop :=
  Mars.camera p ∈ Mars.CameraOptions (Mars.rover p) /\
  0 <= Mars.sol p <= Mars.MAX_SOL (Mars.rover p).

(** What the user and the network can do to the Mars page. *)
Inductive MarsAction :=
  | GridClick (i : nat)
  | HeroClick
  | Press (k : Mars.Key)
  | Previous
  | Next
  | Close
  | ShuffleOrder
  | Refresh
  | Settled (id : nat) (o : Js.outcome Mars.Fetched).

Definition mars_perform (random : nat -> Q) (a : MarsAction) (s : Mars.State)
  : option Mars.State :=
  match a with
  | GridClick i => Some (Mars.gridClick i s)
  | HeroClick => Some (Mars.heroClick s)
  | Press k => Some (Mars.onKey k s)
  | Previous => Some (Mars.clickPrevious s)
  | Next => Some (Mars.clickNext s)
  | Close => Some (Mars.closeLightbox s)
  | ShuffleOrder => Mars.shuffleOrder random s
  | Refresh => Some (snd (Mars.loadPhotos_begin s))
  | Settled id o =>
      match Js.run_async (Mars.loadPhotos_resume id o) s with
      | Some (_, s') => Some s'
      | None => None
      end
  end.

Fixpoint mars_perform_all (random : nat -> Q) (acts : list MarsAction) (s : Mars.State)
  : option Mars.State :=
  match acts with
  | [] => Some s
  | a :: acts' =>
      match mars_perform random a s with
      | Some s' => mars_perform_all random acts' s'
      | None => None
      end
  end.

(** The selected index, if any, is an index of the photo list. *)
Definition selection_ok (s : Mars.State) : Prop :=
  match Mars.selected s with
  | Some i => 0 <= i < Z.of_nat (length (Mars.photos s))
  | None => True
  end.

(** What the user and the network can do to the EPIC page. *)
Inductive EpicAction :=
  | EPrev
  | ENext
  | ESurprise
  | EThumbnail (i : nat)
  | EPress (k : Epic.Key)
  | EFetch
  | ESettled (o : Js.outcome (list Epic.EpicPageData)).

Definition epic_perform (random : nat -> Q) (a : EpicAction) (s : Epic.State)
  : option Epic.State :=
  match a with
  | EPrev => Some (Epic.prev s)
  | ENext => Some (Epic.next s)
  | ESurprise => Some (Epic.surprise random s)
  | EThumbnail i => Some (Epic.thumbnailClick i s)
  | EPress k => Some (Epic.onKey k s)
  | EFetch => Some (Epic.fetchData_begin s)
  | ESettled o =>
      match Js.run_async (Epic.fetchData_resume o) s with
      | Some (_, s') => Some s'
      | None => None
      end
  end.

Fixpoint epic_perform_all (random : nat -> Q) (acts : list EpicAction) (s : Epic.State)
  : option Epic.State :=
  match acts with
  | [] => Some s
  | a :: acts' =>
      match epic_perform random a s with
      | Some s' => epic_perform_all random acts' s'
      | None => None
      end
  end.

(** With a list on display, the index is one of its indices. *)
Definition index_ok (s : Epic.State) : Prop :=
  Epic.data s = [] \/ 0 <= Epic.index s < Z.of_nat (length (Epic.data s)).

(** ** More on the debounce *)

(** Changes that are each at least 500 ms after the one before. *)
Fixpoint spaced (t0 : Z) (p0 : Mars.Params) (cs : list (Z * Mars.Params)) : Prop :=
  match cs with
  | [] => True
  | c :: cs' => snd c ≠ p0 /\ t0 + 500 <= fst c /\ spaced (fst c) (snd c) cs'
  end.

(** The fetch that each change of a list starts. *)
Definition fetch_of (c : Z * Mars.Params) : Mars.Log := Mars.Fetch (fst c + 500) (snd c).

(** ** Strings *)

(** [parts.join(c)] *)
Fixpoint join (c : ascii) (parts : list string) : string :=
  match parts with
  | [] => EmptyString
  | [s] => s
  | s :: parts' => s +:+ String c (join c parts')
  end.

(** The number of occurrences of [c] in [s]. *)
Fixpoint occurrences (c : ascii) (s : string) : nat :=
  match s with
  | EmptyString => 0
  | String a s' => (if decide (a = c) then 1 else 0) + occurrences c s'
  end.

(** The term holds nothing but white space. *)
Definition all_space (s : list N) : bool := forallb Home.is_white_space s.

(** Every character of the text is an ASCII character. *)
Fixpoint all_ascii (s : string) : bool :=
  match s with
  | EmptyString => true
  | String a s' => (N_of_ascii a <? 128)%N && all_ascii s'
  end.

(* ===================================================================== *)
(** * Data of the examples *)
(* ===================================================================== *)

(** [Math.random()] returning 0.5 at every call. *)
Definition half : nat -> Q := fun _ => (1 # 2)%Q.

Definition p0 : Mars.Params := Mars.params Mars.initial.
Definition pA : Mars.Params :=
  {| Mars.sol := 1001; Mars.camera := "FHAZ"; Mars.rover := Mars.Curiosity |}.
Definition pB : Mars.Params :=
  {| Mars.sol := 1002; Mars.camera := "FHAZ"; Mars.rover := Mars.Curiosity |}.
Definition pC : Mars.Params :=
  {| Mars.sol := 1002; Mars.camera := "MAST"; Mars.rover := Mars.Curiosity |}.

Definition photo1 : Mars.Photo :=
  {| Mars.id := 1; Mars.img_src := "a.jpg"; Mars.camera_name := "Mast Camera" |}.
Definition photo2 : Mars.Photo :=
  {| Mars.id := 2; Mars.img_src := "b.jpg"; Mars.camera_name := "Mast Camera" |}.
Definition photo3 : Mars.Photo :=
  {| Mars.id := 3; Mars.img_src := "c.jpg"; Mars.camera_name := "Navigation Camera" |}.

(** Three photos on display, the first one open in the lightbox. *)
Definition mars3 : Mars.State :=
  Mars.setSelected (Some 0) (Mars.setPhotos [photo1; photo2; photo3] Mars.initial).

(** Two calls of the loader; the first one answers late, after the
    second was made, and then the second answers. *)
Definition two_calls : list Mars.Event := [Mars.Call p0; Mars.Call pA].
Definition late_answer : Js.outcome Mars.Fetched := Js.Fulfilled (Mars.JArray [photo1]).
Definition last_answer : Js.outcome Mars.Fetched :=
  Js.Fulfilled (Mars.JArray [photo2; photo3]).
Definition out_of_order : list Mars.Event :=
  two_calls ++ [Mars.Settle 1 late_answer; Mars.Settle 2 last_answer].
Definition after_two_calls : Mars.Sys :=
  Eval vm_compute in default Mars.start (Mars.run Mars.start two_calls).
Definition after_out_of_order : Mars.Sys :=
  Eval vm_compute in default Mars.start (Mars.run Mars.start out_of_order).

(** Mounted at time 0; the first timer has run at 500. *)
Definition mounted : Mars.Debounce := Mars.elapse 600 (Mars.mount 0 p0).

Definition epic1 : Epic.EpicPageData :=
  {| Epic.caption := "Earth"; Epic.date := "2024-03-05 00:13:03";
     Epic.image := "epic_1b_20240305001751"; Epic.identifier := "20240305001751" |}.
Definition epic2 : Epic.EpicPageData :=
  {| Epic.caption := "Earth"; Epic.date := "2024-03-05 02:01:10";
     Epic.image := "epic_1b_20240305020558"; Epic.identifier := "20240305020558" |}.

(** Two EPIC images, the second one on display. *)
Definition epic2s : Epic.State :=
  Epic.setIndex 1 (Epic.setData [epic1; epic2] Epic.initial).

(** Two entries with one URL and two titles. *)
Definition entryA : Home.HomeData :=
  {| Home.title := "Olympus Mons";
     Home.url := "https://images-assets.nasa.gov/image/PIA00300/PIA00300~thumb.jpg" |}.
Definition entryB : Home.HomeData :=
  {| Home.title := "Volcano on Mars";
     Home.url := "https://images-assets.nasa.gov/image/PIA00300/PIA00300~thumb.jpg" |}.

(** Two items of a search response with the same link. *)
Definition item1 : Home.Item :=
  {| Home.data := Some [Some "Full Moon"];
     Home.links := Some [Some "https://images-assets.nasa.gov/image/moon/moon~thumb.jpg"] |}.
Definition item2 : Home.Item :=
  {| Home.data := Some [Some "The Moon, again"];
     Home.links := Some [Some "https://images-assets.nasa.gov/image/moon/moon~thumb.jpg"] |}.

(** An array of four numbers at reference 7. *)
Definition store7 : gmap nat (list nat) := {[ 7%nat := [10; 20; 30; 40]%nat ]}.

(* ===================================================================== *)
(** * Tactics for the completion monad *)
(* ===================================================================== *)

Ltac js_unfold :=
  unfold Js.run_async, Js.try_catch_finally, mbind, mret, act_bind, act_ret,
    Js.bind, Js.await, Js.get, Js.throw, Js.ret, Js.return_, Js.modify, Js.lift_option;
  cbv beta iota.

Ltac js_decide :=
  repeat first
    [ rewrite decide_True by done
    | rewrite decide_False by (try done; intros Hcontra; by apply Hcontra) ];
  cbv beta iota.

(* ===================================================================== *)
(** * Properties of [shuffle] *)
(* ===================================================================== *)

Lemma floor_mul_range (r : Q) (n : Z) :
  (0 <= r)%Q -> (r < 1)%Q -> 0 < n -> 0 <= Js.floor_mul r n < n.
Proof.
  intros H0 H1 Hn. unfold Js.floor_mul. split.
  - change 0 with (Qfloor (inject_Z 0)). apply Qfloor_resp_le.
    apply Qmult_le_0_compat; [exact H0|].
    change 0%Q with (inject_Z 0). rewrite <- Zle_Qle. lia.
  - assert (Hlt : (r * inject_Z n < inject_Z n)%Q).
    { apply Qlt_le_trans with (1 * inject_Z n)%Q.
      - apply Qmult_lt_compat_r; [|exact H1].
        change 0%Q with (inject_Z 0). rewrite <- Zlt_Qlt. exact Hn.
      - rewrite Qmult_1_l. apply Qle_refl. }
    pose proof (Qfloor_le (r * inject_Z n)) as Hfl.
    rewrite Zlt_Qlt. eapply Qle_lt_trans; eassumption.
Qed.

Lemma index_Some {T} (a : list T) (i : Z) (x : T) :
  Js.index a i = Some x <-> 0 <= i /\ a !! Z.to_nat i = Some x.
Proof.
  unfold Js.index. case_decide as Hd; split.
  - by intros ?.
  - by intros [_ ?].
  - done.
  - by intros [? _].
Qed.

Lemma index_in_range {T} (a : list T) (i : Z) :
  0 <= i < Z.of_nat (length a) -> is_Some (Js.index a i).
Proof.
  intros [H0 H1]. unfold Js.index. rewrite decide_True by done.
  apply lookup_lt_is_Some. lia.
Qed.

Lemma swap_Permutation {T} (a a' : list T) (i j : Z) :
  Shuffle.swap a i j = Some a' -> a ≡ₚ a'.
Proof.
  unfold Shuffle.swap.
  destruct (Js.index a i) as [x|] eqn:Hi; [|done].
  destruct (Js.index a j) as [y|] eqn:Hj; [|done].
  intros [= <-].
  apply index_Some in Hi as [_ Hi]. apply index_Some in Hj as [_ Hj].
  set (m := Z.to_nat i) in *. set (n := Z.to_nat j) in *.
  pose proof (lookup_lt_Some _ _ _ Hi) as Hm.
  pose proof (lookup_lt_Some _ _ _ Hj) as Hn.
  symmetry. apply Permutation_inj. split.
  { by rewrite !length_insert. }
  exists (fun p => if decide (p = n) then m else if decide (p = m) then n else p).
  split.
  - intros p q. repeat case_decide; intros; subst; congruence.
  - intros p. rewrite !list_lookup_insert, !length_insert.
    repeat case_decide; subst; try done; try lia; try tauto; try congruence.
    all: destruct_and?; subst; try lia; try congruence.
Qed.

Lemma swap_in_range {T} (a : list T) (i j : Z) :
  0 <= i < Z.of_nat (length a) -> 0 <= j < Z.of_nat (length a) ->
  is_Some (Shuffle.swap a i j).
Proof.
  intros Hi Hj. unfold Shuffle.swap.
  destruct (index_in_range a i Hi) as [x ->].
  destruct (index_in_range a j Hj) as [y ->]. eauto.
Qed.

Lemma shuffle_loop_Permutation {T} (random : nat -> Q) (i : nat) :
  Js.unit_interval random ->
  forall (a : list T) (k : nat), (i < length a)%nat ->
  exists a', Shuffle.shuffle_loop random i a k = Some (a', (k + i)%nat) /\ a ≡ₚ a'.
Proof.
  intros Hr. induction i as [|i IH]; intros a k Hlen; simpl.
  - exists a. by rewrite Nat.add_0_r.
  - destruct (Hr k) as [H0 H1].
    assert (Hj : 0 <= Js.floor_mul (random k) (Z.of_nat (S i) + 1) < Z.of_nat (S i) + 1)
      by (apply floor_mul_range; [done|done|lia]).
    destruct (swap_in_range a (Z.of_nat (S i)) (Js.floor_mul (random k) (Z.of_nat (S i) + 1)))
      as [a1 Hsw]; [lia|lia|].
    rewrite Hsw. pose proof (swap_Permutation _ _ _ _ Hsw) as Hp.
    destruct (IH a1 (S k)) as (a' & Hrun & Hp').
    { rewrite <- (Permutation_length Hp). lia. }
    exists a'. split; [|by etrans].
    rewrite Hrun. by replace (k + S i)%nat with (S k + i)%nat by lia.
Qed.

Lemma shuffle_Permutation {T} (random : nat -> Q) (arr : list T) (k : nat) :
  Js.unit_interval random ->
  exists l, Shuffle.shuffle random arr k = Some (l, (k + (length arr - 1))%nat) /\ arr ≡ₚ l.
Proof.
  intros Hr. unfold Shuffle.shuffle. destruct arr as [|x arr].
  - simpl. exists []. by rewrite Nat.add_0_r.
  - apply shuffle_loop_Permutation; [done|]. simpl. lia.
Qed.

(** The in-place loop on the store does to the array at [a] what
    [shuffle_loop] does to its contents, and touches nothing else. *)
Lemma shuffle_loop_at_contents {T} (random : nat -> Q) (i : nat) :
  forall (a : nat) (h : gmap nat (list T)) (l : list T) (k : nat),
  h !! a = Some l ->
  Shuffle.shuffle_loop_at random i a h k =
    match Shuffle.shuffle_loop random i l k with
    | Some (l', k') => Some (<[a := l']> h, k')
    | None => None
    end.
Proof.
  induction i as [|i IH]; intros a h l k Hl;
    cbn [Shuffle.shuffle_loop_at Shuffle.shuffle_loop].
  - by rewrite insert_id.
  - unfold Shuffle.swap_at. rewrite Hl.
    destruct (Shuffle.swap l _ _) as [l1|]; [|done].
    rewrite (IH a (<[a := l1]> h) l1 (S k)) by apply lookup_insert_eq.
    destruct (Shuffle.shuffle_loop random i l1 (S k)) as [[l' k']|]; [|done].
    by rewrite insert_insert_eq.
Qed.

Lemma shuffle_ref_contents {T} (random : nat -> Q)
    (h : gmap nat (list T)) (arr : nat) (l : list T) (k : nat) :
  h !! arr = Some l ->
  Shuffle.shuffle_ref random h arr k =
    match Shuffle.shuffle random l k with
    | Some (l', k') => Some (fresh (dom h), <[fresh (dom h) := l']> h, k')
    | None => None
    end.
Proof.
  intros Hl. unfold Shuffle.shuffle_ref, Shuffle.spread. rewrite Hl.
  cbv zeta. rewrite lookup_insert_eq.
  rewrite (shuffle_loop_at_contents random _ _ _ l k) by apply lookup_insert_eq.
  unfold Shuffle.shuffle.
  destruct (Shuffle.shuffle_loop random _ l k) as [[l' k']|]; [|done].
  by rewrite insert_insert_eq.
Qed.

(** C10. [shuffle] returns a permutation of its input (the same elements
    with the same multiplicities, hence the same length) in a new array,
    and the array it was given is left as it was. Consequently the Mars
    Shuffle button and the random permutation of the Home page's merge
    neither add, drop nor duplicate an entry. *)
Theorem shuffle_is_permutation_of_copy
    (T : Type) (random : nat -> Q) (h : gmap nat (list T)) (arr : nat) (l : list T)
    (k : nat) (s : Mars.State) (results : list (list Home.HomeData)) :
  Js.unit_interval random ->
  h !! arr = Some l ->
  (exists a l' k',
      Shuffle.shuffle_ref random h arr k = Some (a, <[a := l']> h, k') /\
      Shuffle.shuffle random l k = Some (l', k') /\
      h !! a = None /\ a ≠ arr /\
      <[a := l']> h !! arr = Some l /\
      (forall b, b ≠ a -> <[a := l']> h !! b = h !! b) /\
      l ≡ₚ l' /\ length l' = length l) /\
  (exists s', Mars.shuffleOrder random s = Some s' /\
      Mars.photos s' ≡ₚ Mars.photos s) /\
  (exists m k',
      Shuffle.shuffle random (Home.unique_by_url results) k = Some (m, k') /\
      m ≡ₚ Home.unique_by_url results /\
      Home.merge random results k = Some (Js.slice0 15 m, k')).
Proof.
  intros Hr Hl. split; [|split].
  - destruct (shuffle_Permutation random l k Hr) as (l' & Hsh & Hp).
    assert (Hfresh : h !! fresh (dom h) = None).
    { apply not_elem_of_dom. apply is_fresh. }
    assert (Hne : fresh (dom h) ≠ arr) by (intros E; rewrite E in Hfresh; congruence).
    exists (fresh (dom h)), l', (k + (length l - 1))%nat.
    rewrite (shuffle_ref_contents random h arr l k Hl), Hsh.
    repeat split; try done.
    + by rewrite lookup_insert_ne.
    + intros b Hb. by rewrite lookup_insert_ne.
    + symmetry. by apply Permutation_length.
  - destruct (shuffle_Permutation random (Mars.photos s) (Mars.rng s) Hr) as (l' & Hsh & Hp).
    unfold Mars.shuffleOrder. rewrite Hsh. eexists. split; [done|]. by simpl.
  - destruct (shuffle_Permutation random (Home.unique_by_url results) k Hr) as (m & Hsh & Hp).
    exists m, (k + (length (Home.unique_by_url results) - 1))%nat.
    unfold Home.merge. by rewrite Hsh.
Qed.

Lemma shuffle_is_permutation_of_copy_witness :
  Js.unit_interval half /\
  store7 !! 7%nat = Some [10; 20; 30; 40]%nat /\
  exists a l' k',
    Shuffle.shuffle_ref half store7 7%nat 0 = Some (a, <[a := l']> store7, k') /\
    a ≠ 7%nat /\
    <[a := l']> store7 !! 7%nat = Some [10; 20; 30; 40]%nat /\
    [10; 20; 30; 40]%nat ≡ₚ l'.
Proof.
  assert (H1 : Js.unit_interval half) by (intros k; unfold half, Qle, Qlt; simpl; lia).
  assert (H2 : store7 !! 7%nat = Some [10; 20; 30; 40]%nat) by reflexivity.
  destruct (proj1 (shuffle_is_permutation_of_copy nat half store7 7%nat _ 0%nat
                     Mars.initial [] H1 H2))
    as (a & l' & k' & Href & _ & _ & Hne & Hold & _ & Hperm & _).
  exact (conj H1 (conj H2
           (ex_intro _ a (ex_intro _ l' (ex_intro _ k'
              (conj Href (conj Hne (conj Hold Hperm)))))))).
Defined.

(* ===================================================================== *)
(** * The Mars loader: request tags and stale responses *)
(* ===================================================================== *)

Lemma run_app (y : Mars.Sys) (tr1 tr2 : list Mars.Event) :
  Mars.run y (tr1 ++ tr2) =
    match Mars.run y tr1 with
    | Some y' => Mars.run y' tr2
    | None => None
    end.
Proof.
  revert y. induction tr1 as [|e tr1 IH]; intros y; simpl; [done|].
  destruct (Mars.step y e); [apply IH|done].
Qed.

(** The body of [loadPhotos] after the [await], case by case. *)
Lemma loadPhotos_resume_stale (id : nat) (o : Js.outcome Mars.Fetched) (s : Mars.State) :
  Mars.requestIdRef s ≠ id ->
  Js.run_async (Mars.loadPhotos_resume id o) s = Some (Js.Normal tt, s).
Proof.
  intros Hne. unfold Mars.loadPhotos_resume.
  destruct o as [f|]; js_unfold; by js_decide.
Qed.

Lemma loadPhotos_resume_fulfilled (f : Mars.Fetched) (s : Mars.State) :
  Js.run_async (Mars.loadPhotos_resume (Mars.requestIdRef s) (Js.Fulfilled f)) s =
    Some (Js.Normal tt,
          Mars.setLoading false
            (Mars.setSelected (if decide (length (Mars.as_list f) = 0%nat) then None else Some 0)
               (Mars.setPhotos (Mars.as_list f) s))).
Proof.
  unfold Mars.loadPhotos_resume. js_unfold. js_decide. by destruct f.
Qed.

Lemma loadPhotos_resume_rejected (s : Mars.State) :
  Js.run_async (Mars.loadPhotos_resume (Mars.requestIdRef s) Js.Rejected) s =
    Some (Js.Normal tt, Mars.setLoading false (Mars.setErr Mars.fetch_error s)).
Proof.
  unfold Mars.loadPhotos_resume. js_unfold. by js_decide.
Qed.

Lemma resume_keeps_requestId (id : nat) (o : Js.outcome Mars.Fetched) (s s' : Mars.State)
    (c : Js.completion unit) :
  Js.run_async (Mars.loadPhotos_resume id o) s = Some (c, s') ->
  c = Js.Normal tt /\ Mars.requestIdRef s' = Mars.requestIdRef s.
Proof.
  destruct (decide (Mars.requestIdRef s = id)) as [<-|Hne].
  - destruct o as [f|].
    + rewrite loadPhotos_resume_fulfilled. by intros [= <- <-].
    + rewrite loadPhotos_resume_rejected. by intros [= <- <-].
  - rewrite loadPhotos_resume_stale by done. by intros [= <- <-].
Qed.

Lemma step_inv (y y' : Mars.Sys) (e : Mars.Event) :
  tags_inv y -> Mars.step y e = Some y' -> tags_inv y'.
Proof.
  intros [Ht Hin]. destruct e as [p|id o]; simpl.
  - intros [= <-]. split; cbn -[seq].
    + rewrite Ht. symmetry. apply seq_S.
    + constructor; [set_solver|].
      eapply Forall_impl; [exact Hin|]. set_solver.
  - case_decide as Hid; [|done].
    destruct (Js.run_async _ _) as [[c s']|] eqn:Hrun; [|done].
    apply resume_keeps_requestId in Hrun as [-> Hreq].
    intros [= <-]. split; simpl.
    + by rewrite Hreq.
    + apply Forall_forall. intros i Hi%list_elem_of_filter.
      rewrite Forall_forall in Hin. apply Hin. tauto.
Qed.

Lemma run_inv (tr : list Mars.Event) :
  forall y y', tags_inv y -> Mars.run y tr = Some y' -> tags_inv y'.
Proof.
  induction tr as [|e tr IH]; intros y y' Hy; simpl.
  - by intros [= <-].
  - destruct (Mars.step y e) as [y1|] eqn:Hs; [|done].
    apply IH. by eapply step_inv.
Qed.

Lemma start_inv : tags_inv Mars.start.
Proof. split; [done|constructor]. Qed.

Lemma seq_StronglySorted (a n : nat) : StronglySorted lt (seq a n).
Proof.
  revert a. induction n as [|n IH]; intros a; simpl; constructor; [apply IH|].
  apply Forall_forall. intros x Hx%list_elem_of_In%in_seq. lia.
Qed.

Lemma latest_requestId (y : Mars.Sys) :
  tags_inv y -> latest y = Mars.requestIdRef (Mars.st y).
Proof.
  intros [Ht _]. unfold latest. rewrite Ht.
  destruct (Mars.requestIdRef (Mars.st y)) as [|n]; [done|].
  rewrite seq_S. apply last_last.
Qed.

Lemma step_total (y : Mars.Sys) (e : Mars.Event) :
  receivable y e -> is_Some (Mars.step y e).
Proof.
  destruct e as [p|id o]; simpl; intros He; [by eexists|].
  rewrite decide_True by done.
  destruct (decide (Mars.requestIdRef (Mars.st y) = id)) as [<-|Hne].
  - destruct o as [f|].
    + rewrite loadPhotos_resume_fulfilled. by eexists.
    + rewrite loadPhotos_resume_rejected. by eexists.
  - rewrite loadPhotos_resume_stale by done. by eexists.
Qed.

(** C1. Along every run of the page, the calls of the photo loader are
    tagged 1, 2, 3, ... in call order (strictly increasing), and every
    call and every settling of a call in flight is handled. When the
    network call of an invocation settles, its result is applied to the
    state only if its tag is the latest one handed out, and a response
    whose tag is no longer the latest changes nothing: not the photo
    list, the selected index or the error string (nor any other state). *)
Theorem loader_applies_only_latest (tr : list Mars.Event) (final : Mars.Sys) :
  Mars.run Mars.start tr = Some final ->
  StronglySorted lt (Mars.tags final) /\
  Mars.tags final = seq 1 (length (Mars.tags final)) /\
  (forall e, receivable final e -> is_Some (Mars.step final e)) /\
  forall pre id o post y,
    tr = pre ++ Mars.Settle id o :: post ->
    Mars.run Mars.start pre = Some y ->
    id ∈ Mars.tags y /\
    exists y',
      Mars.step y (Mars.Settle id o) = Some y' /\
      Mars.run y' post = Some final /\
      (id ≠ latest y -> Mars.st y' = Mars.st y) /\
      (id = latest y -> applied o (Mars.st y) (Mars.st y')).
Proof.
  intros Hrun. split; [|split; [|split]].
  - destruct (run_inv tr _ _ start_inv Hrun) as [-> _]. apply seq_StronglySorted.
  - destruct (run_inv tr _ _ start_inv Hrun) as [-> _]. by rewrite length_seq.
  - apply step_total.
  - intros pre id o post y -> Hpre.
    rewrite run_app, Hpre in Hrun. cbn [Mars.run] in Hrun.
    pose proof (run_inv pre _ _ start_inv Hpre) as Hy.
    rewrite (latest_requestId y Hy).
    destruct (Mars.step y (Mars.Settle id o)) as [y'|] eqn:Hstep; [|done].
    simpl in Hstep. case_decide as Hid; [|done].
    split. { destruct Hy as [_ Hin]. rewrite Forall_forall in Hin. by apply Hin. }
    exists y'. split; [done|]. split; [done|].
    destruct (decide (Mars.requestIdRef (Mars.st y) = id)) as [<-|Hne].
    + split; [done|]. intros _. destruct o as [f|].
      * rewrite loadPhotos_resume_fulfilled in Hstep. by injection Hstep as <-.
      * rewrite loadPhotos_resume_rejected in Hstep. by injection Hstep as <-.
    + rewrite loadPhotos_resume_stale in Hstep by done. injection Hstep as <-.
      split; [done|]. intros ->. done.
Qed.

Lemma loader_applies_only_latest_witness :
  Mars.run Mars.start out_of_order = Some after_out_of_order /\
  StronglySorted lt (Mars.tags after_out_of_order) /\
  (exists y', Mars.step after_two_calls (Mars.Settle 1 late_answer) = Some y' /\
              Mars.st y' = Mars.st after_two_calls) /\
  Mars.photos (Mars.st after_out_of_order) = [photo2; photo3].
Proof.
  destruct (loader_applies_only_latest out_of_order after_out_of_order eq_refl)
    as (Hsorted & _ & _ & Hsettle).
  destruct (Hsettle two_calls 1%nat late_answer [Mars.Settle 2 last_answer]
              after_two_calls eq_refl eq_refl)
    as (_ & y' & Hstep & _ & Hstale & _).
  assert (Hold : 1%nat ≠ latest after_two_calls) by (vm_compute; discriminate).
  exact (conj eq_refl (conj Hsorted
           (conj (ex_intro _ y' (conj Hstep (Hstale Hold))) eq_refl))).
Defined.

(* ===================================================================== *)
(** * Settled fetches, page by page *)
(* ===================================================================== *)

Lemma Epic_fetchData_fulfilled (l : list Epic.EpicPageData) (s : Epic.State) :
  Js.run_async (Epic.fetchData_resume (Js.Fulfilled l)) s =
    Some (Js.Normal tt, Epic.setLoading false (Epic.setIndex 0 (Epic.setData l s))).
Proof. reflexivity. Qed.

Lemma Epic_fetchData_rejected (s : Epic.State) :
  Js.run_async (Epic.fetchData_resume Js.Rejected) s =
    Some (Js.Normal tt, Epic.setLoading false (Epic.setError Epic.fetch_error s)).
Proof. reflexivity. Qed.

Lemma Apod_fetchData_rejected (s : Apod.State) :
  Js.run_async (Apod.fetchData_resume Js.Rejected) s =
    Some (Js.Normal tt, Apod.setLoading false (Apod.setError Apod.fetch_error s)).
Proof. reflexivity. Qed.

Lemma Home_loadRandom_rejected (random : nat -> Q) (s : Home.State) :
  Js.run_async (Home.loadRandom_resume random Js.Rejected) s =
    Some (Js.Normal tt, Home.setLoading false (Home.setErr Home.loadRandom_error s)).
Proof. reflexivity. Qed.

Lemma Home_surpriseMe_rejected (random : nat -> Q) (s : Home.State) :
  Js.run_async (Home.surpriseMe_resume random Js.Rejected) s =
    Some (Js.Normal tt, Home.setLoading false (Home.setErr Home.surpriseMe_error s)).
Proof. reflexivity. Qed.

Lemma Home_search_rejected (random : nat -> Q) (s : Home.State) :
  Js.run_async (Home.handleSearchSubmit_resume random Js.Rejected) s =
    Some (Js.Normal tt, Home.setLoading false (Home.setErr Home.search_error s)).
Proof. reflexivity. Qed.

Lemma index_0_head {T} (l : list T) : Js.index l 0 = head l.
Proof. by destruct l. Qed.

(** C2. When a fetch completes successfully and is not stale, the list
    on display is replaced by the fetched list and the selection goes to
    its first item, or to nothing when the fetched list is empty,
    whatever the state (and so the index) was before. Mars loader, for a
    fetched array [l]: [photos] is [l] and [selected] is 0, or null when
    [l] is empty (a fetched value that is not an array counts as the
    empty list). EPIC refetch: [data] is the fetched list and [index] is
    0, which designates the first item, or no item ([current] is null)
    for an empty list. *)
Theorem fetch_success_replaces_list_and_resets_selection
    (s : Mars.State) (l : list Mars.Photo) (e : Epic.State) (l' : list Epic.EpicPageData) :
  (exists s',
      Js.run_async
        (Mars.loadPhotos_resume (Mars.requestIdRef s) (Js.Fulfilled (Mars.JArray l))) s
        = Some (Js.Normal tt, s') /\
      Mars.photos s' = l /\
      Mars.selected s' = (if decide (l = []) then None else Some 0) /\
      Mars.currentPhoto (Mars.photos s') (Mars.selected s') = head l /\
      Mars.loading s' = false) /\
  (exists s',
      Js.run_async
        (Mars.loadPhotos_resume (Mars.requestIdRef s) (Js.Fulfilled Mars.JOther)) s
        = Some (Js.Normal tt, s') /\
      Mars.photos s' = [] /\ Mars.selected s' = None /\ Mars.loading s' = false) /\
  (exists e',
      Js.run_async (Epic.fetchData_resume (Js.Fulfilled l')) e = Some (Js.Normal tt, e') /\
      Epic.data e' = l' /\
      Epic.index e' = 0 /\
      Epic.current e' = head l' /\
      Epic.loading e' = false).
Proof.
  split; [|split].
  - eexists. split; [apply loadPhotos_resume_fulfilled|]. simpl.
    destruct l as [|x l0]; simpl; by repeat split.
  - eexists. split; [apply loadPhotos_resume_fulfilled|]. done.
  - eexists. split; [apply Epic_fetchData_fulfilled|]. simpl.
    repeat split. unfold Epic.current, Epic.hasData. simpl.
    destruct l'; [done|]. rewrite bool_decide_true by (simpl; lia). done.
Qed.

(** Two photos arrive while three are shown with the third selected, and
    two EPIC images arrive while the second of two is shown. *)
Lemma fetch_success_replaces_list_and_resets_selection_witness :
  (exists s',
      Js.run_async
        (Mars.loadPhotos_resume (Mars.requestIdRef (Mars.setSelected (Some 2) mars3))
           (Js.Fulfilled (Mars.JArray [photo3; photo2])))
        (Mars.setSelected (Some 2) mars3) = Some (Js.Normal tt, s') /\
      Mars.photos s' = [photo3; photo2] /\ Mars.selected s' = Some 0) /\
  (exists e',
      Js.run_async (Epic.fetchData_resume (Js.Fulfilled [epic2; epic1])) epic2s
        = Some (Js.Normal tt, e') /\
      Epic.data e' = [epic2; epic1] /\ Epic.index e' = 0).
Proof.
  destruct (fetch_success_replaces_list_and_resets_selection
              (Mars.setSelected (Some 2) mars3) [photo3; photo2] epic2s [epic2; epic1])
    as ((s' & H1 & H2 & H3 & _) & _ & (e' & H4 & H5 & H6 & _)).
  exact (conj (ex_intro _ s' (conj H1 (conj H2 H3)))
              (ex_intro _ e' (conj H4 (conj H5 H6)))).
Defined.

(** C3 as stated fails for the Mars loader: the first of two calls fails
    after the second was made; nothing is set, and the error string is
    still the empty one that the second call wrote. *)
Lemma stale_failure_sets_no_message :
  exists y,
    Mars.run Mars.start [Mars.Call p0; Mars.Call p0; Mars.Settle 1 Js.Rejected] = Some y /\
    Mars.err (Mars.st y) = "" /\
    Mars.err (Mars.st y) ≠ Mars.fetch_error.
Proof. eexists. split; [reflexivity|]. split; [reflexivity|]. discriminate. Qed.

(** C3, amended. When the network call of a page's fetch operation fails,
    the operation ends normally (nothing is thrown further), the fetched
    data of the page (photo list and selected index, search results, EPIC
    list and index, APOD record) is as it was, and the error string is the
    fixed message of that operation; except that the Mars loader sets the
    message only when the failed call is still the latest one, and
    otherwise changes nothing at all. The code before the [await] does not
    touch the fetched data either. *)
Theorem fetch_failure_is_caught_and_keeps_data
    (random : nat -> Q) (id : nat)
    (m : Mars.State) (h : Home.State) (e : Epic.State) (a : Apod.State) :
  (exists m',
      Js.run_async (Mars.loadPhotos_resume id Js.Rejected) m = Some (Js.Normal tt, m') /\
      Mars.photos m' = Mars.photos m /\ Mars.selected m' = Mars.selected m /\
      Mars.err m' = (if decide (Mars.requestIdRef m = id) then Mars.fetch_error else Mars.err m) /\
      (Mars.requestIdRef m ≠ id -> m' = m)) /\
  (Mars.photos (snd (Mars.loadPhotos_begin m)) = Mars.photos m /\
   Mars.selected (snd (Mars.loadPhotos_begin m)) = Mars.selected m) /\
  (exists h',
      Js.run_async (Home.loadRandom_resume random Js.Rejected) h = Some (Js.Normal tt, h') /\
      Home.shown h' = Home.shown h /\ Home.err h' = Home.loadRandom_error) /\
  (exists h',
      Js.run_async (Home.surpriseMe_resume random Js.Rejected) h = Some (Js.Normal tt, h') /\
      Home.shown h' = Home.shown h /\ Home.err h' = Home.surpriseMe_error) /\
  (exists h',
      Js.run_async (Home.handleSearchSubmit_resume random Js.Rejected) h
        = Some (Js.Normal tt, h') /\
      Home.shown h' = Home.shown h /\ Home.err h' = Home.search_error) /\
  Home.shown (Home.loadRandom_begin h) = Home.shown h /\
  (forall topics h1, Home.surpriseMe_begin random h = Some (topics, h1) ->
      Home.shown h1 = Home.shown h) /\
  (forall q h1, Home.handleSearchSubmit_begin h = Some (q, h1) ->
      Home.shown h1 = Home.shown h) /\
  (exists e',
      Js.run_async (Epic.fetchData_resume Js.Rejected) e = Some (Js.Normal tt, e') /\
      Epic.data e' = Epic.data e /\ Epic.index e' = Epic.index e /\
      Epic.error e' = Epic.fetch_error) /\
  (Epic.data (Epic.fetchData_begin e) = Epic.data e /\
   Epic.index (Epic.fetchData_begin e) = Epic.index e) /\
  (exists a',
      Js.run_async (Apod.fetchData_resume Js.Rejected) a = Some (Js.Normal tt, a') /\
      Apod.data a' = Apod.data a /\ Apod.error a' = Apod.fetch_error) /\
  Apod.data (Apod.fetchData_begin a) = Apod.data a.
Proof.
  repeat apply conj; try done.
  - destruct (decide (Mars.requestIdRef m = id)) as [<-|Hne].
    + eexists. split; [apply loadPhotos_resume_rejected|]. by repeat split.
    + exists m. split; [by apply loadPhotos_resume_stale|]. by repeat split.
  - eexists. split; [apply Home_loadRandom_rejected|]. by split.
  - eexists. split; [apply Home_surpriseMe_rejected|]. by split.
  - eexists. split; [apply Home_search_rejected|]. by split.
  - intros topics h1. unfold Home.surpriseMe_begin.
    destruct (Home.pickN _ _ _ _) as [[t k]|]; [|done]. by intros [= _ <-].
  - intros q h1. unfold Home.handleSearchSubmit_begin.
    case_decide; [done|]. by intros [= _ <-].
  - eexists. split; [apply Epic_fetchData_rejected|]. by repeat split.
  - eexists. split; [apply Apod_fetchData_rejected|]. by split.
Qed.

(* ===================================================================== *)
(** * Carousel navigation and the empty state *)
(* ===================================================================== *)

Lemma rem_previous (n i : Z) :
  0 <= i < n ->
  Js.rem (i - 1 + n) n = (i - 1 + n) mod n /\
  (i - 1 + n) mod n = (if decide (i = 0) then n - 1 else i - 1).
Proof.
  intros Hi. unfold Js.rem. rewrite Z.rem_mod_nonneg by lia. split; [done|].
  case_decide as H0.
  - subst i. replace (0 - 1 + n) with (n - 1) by lia. apply Z.mod_small. lia.
  - replace (i - 1 + n) with (i - 1 + 1 * n) by lia.
    rewrite Z.mod_add by lia. apply Z.mod_small. lia.
Qed.

Lemma rem_next (n i : Z) :
  0 <= i < n ->
  Js.rem (i + 1) n = (i + 1) mod n /\
  (i + 1) mod n = (if decide (i = n - 1) then 0 else i + 1).
Proof.
  intros Hi. unfold Js.rem. rewrite Z.rem_mod_nonneg by lia. split; [done|].
  case_decide as H0.
  - subst i. replace (n - 1 + 1) with n by lia. apply Z.mod_same. lia.
  - apply Z.mod_small. lia.
Qed.

(** C7. On a list of length [n > 0] with the current index [i] in
    [0, n), "previous" moves the index to [(i - 1 + n) mod n] and "next"
    to [(i + 1) mod n]: from 0 back to [n - 1], from [n - 1] on to 0, and
    one step down or up otherwise, so the index stays within [0, n). This
    holds for the buttons and arrow keys of the Mars lightbox and of the
    EPIC carousel. *)
Theorem carousel_wraps_modulo_length (m : Mars.State) (e : Epic.State) (i : Z) :
  Mars.selected m = Some i ->
  0 <= i < Z.of_nat (length (Mars.photos m)) ->
  0 <= Epic.index e < Z.of_nat (length (Epic.data e)) ->
  let n := Z.of_nat (length (Mars.photos m)) in
  let j := Epic.index e in
  let k := Z.of_nat (length (Epic.data e)) in
  (Mars.selected (Mars.onKey Mars.ArrowLeft m) = Some ((i - 1 + n) mod n) /\
   Mars.selected (Mars.clickPrevious m) = Some ((i - 1 + n) mod n) /\
   Mars.selected (Mars.onKey Mars.ArrowRight m) = Some ((i + 1) mod n) /\
   Mars.selected (Mars.clickNext m) = Some ((i + 1) mod n)) /\
  (Epic.index (Epic.prev e) = (j - 1 + k) mod k /\
   Epic.index (Epic.onKey Epic.ArrowLeft e) = (j - 1 + k) mod k /\
   Epic.index (Epic.next e) = (j + 1) mod k /\
   Epic.index (Epic.onKey Epic.ArrowRight e) = (j + 1) mod k) /\
  ((i - 1 + n) mod n = (if decide (i = 0) then n - 1 else i - 1) /\
   (i + 1) mod n = (if decide (i = n - 1) then 0 else i + 1) /\
   (j - 1 + k) mod k = (if decide (j = 0) then k - 1 else j - 1) /\
   (j + 1) mod k = (if decide (j = k - 1) then 0 else j + 1)) /\
  (0 <= (i - 1 + n) mod n < n /\ 0 <= (i + 1) mod n < n /\
   0 <= (j - 1 + k) mod k < k /\ 0 <= (j + 1) mod k < k).
Proof.
  intros Hsel Hi Hj n j k.
  destruct (rem_previous n i Hi) as [Hp1 Hp2].
  destruct (rem_next n i Hi) as [Hn1 Hn2].
  destruct (rem_previous k j Hj) as [Hq1 Hq2].
  destruct (rem_next k j Hj) as [Hm1 Hm2].
  assert (Hopen : Mars.lightbox_open m = true).
  { unfold Mars.lightbox_open. rewrite Hsel. apply bool_decide_eq_true.
    by apply index_in_range. }
  assert (Hdata : Epic.hasData e = true).
  { unfold Epic.hasData. apply bool_decide_eq_true. lia. }
  split; [|split; [|split]].
  - unfold Mars.onKey, Mars.clickPrevious, Mars.clickNext.
    rewrite Hopen, Hsel. rewrite !decide_False by (intros [?|?]; [lia|done]).
    simpl. fold n. by rewrite Hp1, Hn1.
  - unfold Epic.onKey, Epic.prev, Epic.next. rewrite Hdata. simpl.
    fold j k. by rewrite Hq1, Hm1.
  - done.
  - repeat split; apply Z.mod_pos_bound; lia.
Qed.

Lemma carousel_wraps_modulo_length_witness :
  Mars.selected (Mars.onKey Mars.ArrowLeft mars3) = Some 2 /\
  Epic.index (Epic.next epic2s) = 0.
Proof.
  pose proof (carousel_wraps_modulo_length mars3 epic2s 0 eq_refl
                ltac:(simpl; lia) ltac:(simpl; lia)) as H.
  cbv zeta in H. destruct H as [[H1 _] [[_ [_ [H2 _]]] _]].
  split; [exact H1 | exact H2].
Defined.

(** C9. With an empty list the item on display is none, whatever the
    selection index is: the Mars hero and the EPIC detail view show the
    empty state (or the skeleton while loading) and never an item, and
    the Mars lightbox stays closed. In particular this is the view once a
    fetch that returned an empty list has been applied. *)
Theorem empty_list_renders_empty_state
    (m : Mars.State) (e : Epic.State) (sel : option Z) (i : Z) :
  Mars.photos m = [] ->
  Epic.data e = [] ->
  (Mars.currentPhoto [] sel = None /\
   Mars.currentPhoto (Mars.photos m) (Mars.selected m) = None /\
   Mars.hero m = (if Mars.loading m then Mars.HeroSkeleton else Mars.HeroEmpty) /\
   Mars.lightbox_open m = false) /\
  (Epic.current (Epic.setIndex i e) = None /\
   Epic.current e = None /\
   Epic.currentUrl e = "" /\
   Epic.view e = (if Epic.loading e then Epic.Skeleton else Epic.Empty)) /\
  (exists m',
      Js.run_async (Mars.loadPhotos_resume (Mars.requestIdRef m) (Js.Fulfilled (Mars.JArray []))) m
        = Some (Js.Normal tt, m') /\ Mars.hero m' = Mars.HeroEmpty) /\
  (exists e',
      Js.run_async (Epic.fetchData_resume (Js.Fulfilled [])) e = Some (Js.Normal tt, e') /\
      Epic.view e' = Epic.Empty).
Proof.
  intros Hm He.
  assert (Hcur : forall s, Mars.currentPhoto [] s = None).
  { intros [z|]; unfold Mars.currentPhoto, Js.index; [|done]. by case_decide. }
  split; [|split; [|split]].
  - split; [apply Hcur|]. unfold Mars.hero, Mars.lightbox_open. rewrite Hm, Hcur.
    repeat split. destruct (Mars.selected m) as [z|]; [|done].
    apply bool_decide_eq_false. unfold Js.index. case_decide; by intros [? ?].
  - unfold Epic.view, Epic.currentUrl, Epic.current, Epic.hasData. simpl. by rewrite He.
  - eexists. split; [apply loadPhotos_resume_fulfilled|]. done.
  - eexists. split; [apply Epic_fetchData_fulfilled|]. done.
Qed.

Lemma empty_list_renders_empty_state_witness :
  Mars.photos Mars.initial = [] /\ Epic.data Epic.initial = [] /\
  Mars.currentPhoto [] (Some 4) = None /\
  Epic.current (Epic.setIndex 4 Epic.initial) = None.
Proof.
  pose proof (empty_list_renders_empty_state Mars.initial Epic.initial (Some 4) 4
                eq_refl eq_refl) as H.
  destruct H as [[H1 _] [[H2 _] _]].
  exact (conj eq_refl (conj eq_refl (conj H1 H2))).
Defined.

(* ===================================================================== *)
(** * The EPIC image URL *)
(* ===================================================================== *)

Lemma app_cons (a : ascii) (s t : string) : String a s +:+ t = String a (s +:+ t).
Proof. reflexivity. Qed.

Lemma app_assoc_string (s t u : string) : (s +:+ t) +:+ u = s +:+ t +:+ u.
Proof. induction s as [|a s IH]; [done|]. by rewrite !app_cons, IH. Qed.

Lemma app_length_string (s t : string) :
  String.length (s +:+ t) = (String.length s + String.length t)%nat.
Proof. induction s as [|a s IH]; [done|]. rewrite app_cons. simpl. by rewrite IH. Qed.

Lemma substring_prefix (s t : string) :
  String.substring 0 (String.length s) (s +:+ t) = s.
Proof.
  induction s as [|a s IH].
  - by destruct t.
  - rewrite app_cons. simpl. by rewrite IH.
Qed.

Lemma split_digits_then_sep (s t : string) :
  all_digits s = true ->
  Epic.split "-" (s +:+ String "-" t) = s :: Epic.split "-" t.
Proof.
  induction s as [|a s IH]; intros Hd.
  - done.
  - simpl in Hd. apply andb_prop in Hd as [Ha Hs].
    rewrite app_cons. cbn [Epic.split].
    rewrite decide_False by (intros ->; discriminate Ha).
    by rewrite IH.
Qed.

Lemma split_digits (s : string) :
  all_digits s = true -> Epic.split "-" s = [s].
Proof.
  induction s as [|a s IH]; intros Hd; [done|].
  simpl in Hd. apply andb_prop in Hd as [Ha Hs].
  cbn [Epic.split]. rewrite decide_False by (intros ->; discriminate Ha).
  by rewrite IH.
Qed.

(** C8. For an item whose [date] starts with a well-formed "YYYY-MM-DD"
    (four, two and two digits, separated by hyphens), the URL built is
    exactly "https://epic.gsfc.nasa.gov/archive/natural/YYYY/MM/DD/png/"
    followed by the [image] identifier and ".png". The builder is a
    function of the item alone. *)
Theorem buildEpicUrl_of_well_formed_date (item : Epic.EpicPageData) (y m d rest : string) :
  Epic.date item = y +:+ "-" +:+ m +:+ "-" +:+ d +:+ rest ->
  String.length y = 4%nat -> String.length m = 2%nat -> String.length d = 2%nat ->
  all_digits y = true -> all_digits m = true -> all_digits d = true ->
  Epic.buildEpicUrl item =
    "https://epic.gsfc.nasa.gov/archive/natural/" +:+ y +:+ "/" +:+ m +:+ "/" +:+ d
      +:+ "/png/" +:+ Epic.image item +:+ ".png".
Proof.
  intros Hdate Hy Hm Hd Dy Dm Dd. unfold Epic.buildEpicUrl. rewrite Hdate.
  assert (Hpre : String.substring 0 10 (y +:+ "-" +:+ m +:+ "-" +:+ d +:+ rest)
                 = y +:+ "-" +:+ m +:+ "-" +:+ d).
  { replace (y +:+ "-" +:+ m +:+ "-" +:+ d +:+ rest)
      with ((y +:+ "-" +:+ m +:+ "-" +:+ d) +:+ rest)
      by (by rewrite !app_assoc_string).
    replace 10%nat with (String.length (y +:+ "-" +:+ m +:+ "-" +:+ d)).
    - apply substring_prefix.
    - rewrite !app_length_string, Hy, Hm, Hd. reflexivity. }
  rewrite Hpre.
  change (y +:+ "-" +:+ m +:+ "-" +:+ d)
    with (y +:+ String "-" (m +:+ String "-" d)).
  rewrite (split_digits_then_sep y _ Dy), (split_digits_then_sep m _ Dm),
    (split_digits d Dd).
  reflexivity.
Qed.

Lemma buildEpicUrl_of_well_formed_date_witness :
  Epic.buildEpicUrl epic1 =
    "https://epic.gsfc.nasa.gov/archive/natural/2024/03/05/png/epic_1b_20240305001751.png".
Proof.
  exact (buildEpicUrl_of_well_formed_date epic1 "2024" "03" "05" " 00:13:03"
           eq_refl eq_refl eq_refl eq_refl eq_refl eq_refl eq_refl).
Defined.

(* ===================================================================== *)
(** * The debounced auto-load *)
(* ===================================================================== *)

Lemma last_cons_default {A} (c d : A) (cs : list A) :
  List.last (c :: cs) d = List.last cs c.
Proof.
  revert c d. induction cs as [|x cs IH]; intros c d; [done|].
  change (List.last (c :: x :: cs) d) with (List.last (x :: cs) d).
  by rewrite (IH x d), (IH x c).
Qed.

Lemma renders_cons (d : Mars.Debounce) (c : Z * Mars.Params) (cs : list (Z * Mars.Params)) :
  Mars.renders d (c :: cs) = Mars.renders (Mars.render (fst c) (snd c) d) cs.
Proof. reflexivity. Qed.

Lemma filter_not_due (t : Z) (l : list (nat * Mars.Timer)) :
  Forall (fun e => t < Mars.deadline (snd e)) l ->
  filter (fun e => ¬ Mars.deadline (snd e) <= t) l = l /\
  filter (fun e => Mars.deadline (snd e) <= t) l = [].
Proof.
  induction 1 as [|e l He _ [IH1 IH2]]; [done|].
  rewrite filter_cons_True by lia. rewrite filter_cons_False by lia. by rewrite IH1.
Qed.

(** With no timer due, time passes without effect. *)
Lemma elapse_not_due (t : Z) (d : Mars.Debounce) :
  Forall (fun e => t < Mars.deadline (snd e)) (Mars.timers d) -> Mars.elapse t d = d.
Proof.
  intros Hd. unfold Mars.elapse. destruct (filter_not_due t _ Hd) as [-> ->].
  destruct d. simpl. by rewrite app_nil_r.
Qed.

(** A change while the timer of the last effect run is the only one and
    has not run: that timer is cleared and a new one is started. *)
Lemma render_change_pending (d : Mars.Debounce) (h : nat) (tm : Mars.Timer)
    (t : Z) (p : Mars.Params) :
  Mars.timers d = [(h, tm)] -> Mars.cleanup_handle d = Some h ->
  t < Mars.deadline tm -> p ≠ Mars.deps d ->
  Mars.render t p d =
    {| Mars.deps := p;
       Mars.cleanup_handle := Some (Mars.next_handle d);
       Mars.timers := [(Mars.next_handle d, {| Mars.deadline := t + 500; Mars.captured := p |})];
       Mars.next_handle := S (Mars.next_handle d);
       Mars.log := Mars.log d ++ [Mars.Cleared t tm] |}.
Proof.
  intros Htm Hh Ht Hp. unfold Mars.render.
  rewrite elapse_not_due by (rewrite Htm; repeat constructor; done).
  rewrite decide_False by done.
  unfold Mars.effect, Mars.cleanup. rewrite Hh, Htm. cbn [Mars.timers Mars.next_handle Mars.log].
  rewrite filter_cons_False by (intros Hne; by apply Hne).
  rewrite filter_cons_True by done. by rewrite !filter_nil.
Qed.

(** A change while no timer is pending: a timer is started. *)
Lemma render_change_idle (d : Mars.Debounce) (t : Z) (p : Mars.Params) :
  Mars.timers d = [] -> p ≠ Mars.deps d ->
  Mars.render t p d =
    {| Mars.deps := p;
       Mars.cleanup_handle := Some (Mars.next_handle d);
       Mars.timers := [(Mars.next_handle d, {| Mars.deadline := t + 500; Mars.captured := p |})];
       Mars.next_handle := S (Mars.next_handle d);
       Mars.log := Mars.log d |}.
Proof.
  intros Htm Hp. unfold Mars.render.
  rewrite elapse_not_due by (rewrite Htm; constructor).
  rewrite decide_False by done.
  unfold Mars.effect, Mars.cleanup. destruct (Mars.cleanup_handle d) as [h|].
  - cbn [Mars.timers Mars.next_handle Mars.log]. rewrite Htm, !filter_nil. simpl.
    by rewrite app_nil_r.
  - by rewrite Htm.
Qed.

(** The only timer runs when its deadline is reached. *)
Lemma elapse_due (d : Mars.Debounce) (h : nat) (tm : Mars.Timer) (T : Z) :
  Mars.timers d = [(h, tm)] -> Mars.deadline tm <= T ->
  Mars.elapse T d =
    {| Mars.deps := Mars.deps d;
       Mars.cleanup_handle := Mars.cleanup_handle d;
       Mars.timers := [];
       Mars.next_handle := Mars.next_handle d;
       Mars.log := Mars.log d ++ [Mars.Fetch (Mars.deadline tm) (Mars.captured tm)] |}.
Proof.
  intros Htm HT. unfold Mars.elapse. rewrite Htm.
  rewrite filter_cons_False by (intros Hn; by apply Hn).
  rewrite filter_cons_True by done. by rewrite !filter_nil.
Qed.

Lemma renders_rapid (cs : list (Z * Mars.Params)) :
  forall (d : Mars.Debounce) (h : nat) (t : Z) (p : Mars.Params),
  Mars.timers d = [(h, {| Mars.deadline := t + 500; Mars.captured := p |})] ->
  Mars.cleanup_handle d = Some h ->
  Mars.deps d = p ->
  rapid t p cs ->
  exists h' n',
    Mars.renders d cs =
      {| Mars.deps := snd (List.last cs (t, p));
         Mars.cleanup_handle := Some h';
         Mars.timers := [(h', {| Mars.deadline := fst (List.last cs (t, p)) + 500;
                                 Mars.captured := snd (List.last cs (t, p)) |})];
         Mars.next_handle := n';
         Mars.log := Mars.log d ++ cancellations t p cs |}.
Proof.
  induction cs as [|[t' p'] cs IH]; intros d h t p Htm Hh Hdeps Hr.
  - exists h, (Mars.next_handle d). destruct d. simpl in *. subst. by rewrite app_nil_r.
  - destruct Hr as (Hne & Htime & Hr). simpl in Hne, Htime, Hr.
    rewrite last_cons_default, renders_cons. cbn [fst snd].
    rewrite (render_change_pending d h _ t' p' Htm Hh) by (simpl; (lia || congruence)).
    match goal with
    | |- context [Mars.renders ?d1 cs] =>
        destruct (IH d1 (Mars.next_handle d) t' p' eq_refl eq_refl eq_refl Hr)
          as (h' & n' & ->)
    end.
    exists h', n'. cbn [Mars.log cancellations fst snd]. by rewrite <- app_assoc.
Qed.

Lemma cancellations_in_time (cs : list (Z * Mars.Params)) :
  forall t p, rapid t p cs -> Forall cleared_in_time (cancellations t p cs).
Proof.
  induction cs as [|c cs IH]; intros t p Hr; [constructor|].
  destruct Hr as (_ & Htime & Hr). constructor; [simpl; lia|by apply IH].
Qed.

Lemma cancellations_length t p cs : length (cancellations t p cs) = length cs.
Proof. revert t p. induction cs as [|c cs IH]; intros t p; simpl; [done|]. by rewrite IH. Qed.

(** C4. Take a change of the query parameters at time [t1] to [p1], made
    when no timer is pending, followed by further changes [cs], each less
    than 500 ms after the one before. Once 500 ms have passed since the
    last change, the log holds, after what it held before: one [Cleared]
    entry for the timer of every change but the last, each removed before
    its deadline, and then exactly one [Fetch], at 500 ms after the last
    change and with the parameters of the last change. No timer is left. *)
Theorem debounce_fires_once_after_last_change
    (d0 : Mars.Debounce) (t1 : Z) (p1 : Mars.Params) (cs : list (Z * Mars.Params)) (T : Z) :
  Mars.timers d0 = [] ->
  p1 ≠ Mars.deps d0 ->
  rapid t1 p1 cs ->
  fst (List.last cs (t1, p1)) + 500 <= T ->
  let tn := fst (List.last cs (t1, p1)) in
  let pn := snd (List.last cs (t1, p1)) in
  let d := Mars.elapse T (Mars.renders d0 ((t1, p1) :: cs)) in
  Mars.log d = Mars.log d0 ++ cancellations t1 p1 cs ++ [Mars.Fetch (tn + 500) pn] /\
  Forall cleared_in_time (cancellations t1 p1 cs) /\
  length (cancellations t1 p1 cs) = length cs /\
  Mars.timers d = [] /\
  Mars.deps d = pn.
Proof.
  intros Hidle Hne Hr HT tn pn d.
  assert (Hall : exists h' n',
            Mars.renders d0 ((t1, p1) :: cs) =
            {| Mars.deps := pn;
               Mars.cleanup_handle := Some h';
               Mars.timers := [(h', {| Mars.deadline := tn + 500; Mars.captured := pn |})];
               Mars.next_handle := n';
               Mars.log := Mars.log d0 ++ cancellations t1 p1 cs |}).
  { rewrite renders_cons. cbn [fst snd]. rewrite (render_change_idle d0 t1 p1 Hidle Hne).
    match goal with
    | |- context [Mars.renders ?d1 cs] =>
        destruct (renders_rapid cs d1 (Mars.next_handle d0) t1 p1 eq_refl eq_refl eq_refl Hr)
          as (h' & n' & ->)
    end.
    by exists h', n'. }
  destruct Hall as (h' & n' & Hall). subst d. rewrite Hall.
  erewrite elapse_due; [|reflexivity|done]. cbn [Mars.log Mars.timers Mars.deps].
  repeat split.
  - by rewrite <- app_assoc.
  - by apply cancellations_in_time.
  - apply cancellations_length.
Qed.

Lemma debounce_fires_once_after_last_change_witness :
  Mars.log (Mars.elapse 2500 (Mars.renders mounted [(1000, pA); (1200, pB); (1600, pC)])) =
    [ Mars.Fetch 500 p0;
      Mars.Cleared 1200 {| Mars.deadline := 1500; Mars.captured := pA |};
      Mars.Cleared 1600 {| Mars.deadline := 1700; Mars.captured := pB |};
      Mars.Fetch 2100 pC ].
Proof.
  exact (proj1 (debounce_fires_once_after_last_change mounted 1000 pA
                  [(1200, pB); (1600, pC)] 2500
                  eq_refl ltac:(discriminate)
                  ltac:(simpl; repeat split; (discriminate || lia))
                  ltac:(simpl; lia))).
Defined.

(* ===================================================================== *)
(** * The Home page: merge, deduplicate, sample *)
(* ===================================================================== *)

Lemma Map_new_snoc {V} (es : list (string * V)) (e : string * V) :
  Home.Map_new (es ++ [e]) = Home.Map_set (fst e) (snd e) (Home.Map_new es).
Proof. unfold Home.Map_new. by rewrite fold_left_app. Qed.

Lemma Map_set_new_key {V} (k : string) (v : V) (m : list (string * V)) :
  k ∉ fst <$> m -> Home.Map_set k v m = m ++ [(k, v)].
Proof.
  induction m as [|[k' v'] m IH]; intros Hk; [done|].
  cbn [Home.Map_set]. rewrite fmap_cons, not_elem_of_cons in Hk. destruct Hk as [Hne Hk].
  rewrite decide_False by (simpl in Hne; congruence).
  by rewrite IH.
Qed.

Lemma Map_set_old_key {V} (k : string) (v : V) (m : list (string * V)) :
  NoDup (fst <$> m) -> k ∈ fst <$> m ->
  Home.Map_set k v m = (fun e => (fst e, if decide (fst e = k) then v else snd e)) <$> m.
Proof.
  induction m as [|[k' v'] m IH]; intros Hnd Hk.
  - by apply elem_of_nil in Hk.
  - rewrite fmap_cons in Hnd. apply NoDup_cons in Hnd as [Hk' Hnd].
    cbn [Home.Map_set]. rewrite fmap_cons. cbn [fst snd].
    destruct (decide (k' = k)) as [->|Hne].
    + f_equal. symmetry. rewrite <- (list_fmap_id m) at 2.
      apply list_fmap_ext. intros i [k2 v2] Hi. cbn [fst snd].
      rewrite decide_False; [done|]. intros ->. apply Hk'.
      apply list_elem_of_fmap. exists (k, v2). split; [done|].
      by eapply list_elem_of_lookup_2.
    + f_equal. apply IH; [done|].
      rewrite fmap_cons in Hk. apply elem_of_cons in Hk as [?|?]; [|done].
      simpl in *. congruence.
Qed.

Lemma first_wins_snoc (p : list Home.HomeData) (x : Home.HomeData) :
  first_wins (p ++ [x]) =
    first_wins p ++ (if decide (Home.url x ∈ Home.url <$> p) then [] else [x]).
Proof.
  induction p as [|a p IH].
  - reflexivity.
  - cbn [app first_wins]. rewrite IH, filter_app, fmap_cons. f_equal. f_equal.
    destruct (decide (Home.url x = Home.url a)) as [Heq|Hne].
    + rewrite (decide_True (P := Home.url x ∈ _ :: _)) by (rewrite Heq; apply list_elem_of_here).
      case_decide; [done|]. rewrite filter_cons_False by (intros H'; by apply H'). done.
    + case_decide as Hin.
      * by rewrite decide_True by by apply list_elem_of_further.
      * rewrite decide_False by (rewrite elem_of_cons; tauto).
        by rewrite filter_cons_True by done.
Qed.

Lemma latest_record_snoc (p : list Home.HomeData) (x y : Home.HomeData) :
  latest_record (p ++ [x]) y =
    if decide (Home.url y = Home.url x) then x else latest_record p y.
Proof.
  unfold latest_record. rewrite filter_app. case_decide as Hxy.
  - rewrite filter_cons_True by done. by rewrite filter_nil, last_snoc.
  - rewrite filter_cons_False by congruence. by rewrite filter_nil, app_nil_r.
Qed.

Lemma latest_record_url (p : list Home.HomeData) (y : Home.HomeData) :
  Home.url (latest_record p y) = Home.url y.
Proof.
  unfold latest_record.
  destruct (last (filter _ p)) as [z|] eqn:Hz; [|done]. simpl.
  assert (Hin : z ∈ filter (fun z => Home.url z = Home.url y) p).
  { apply last_Some in Hz as [l' ->]. set_solver. }
  by apply list_elem_of_filter in Hin as [? _].
Qed.

Lemma latest_record_in (p : list Home.HomeData) (y : Home.HomeData) :
  y ∈ p -> latest_record p y ∈ p /\ latest_record p (latest_record p y) = latest_record p y.
Proof.
  intros Hy. unfold latest_record at 1 3.
  destruct (last (filter (fun z => Home.url z = Home.url y) p)) as [z|] eqn:Hz.
  - simpl. assert (Hin : z ∈ filter (fun z => Home.url z = Home.url y) p).
    { apply last_Some in Hz as [l' ->]. set_solver. }
    apply list_elem_of_filter in Hin as [Hu Hin]. split; [done|].
    unfold latest_record. rewrite Hu, Hz. done.
  - apply last_None in Hz.
    assert (y ∈ filter (fun z => Home.url z = Home.url y) p) as Hy'
      by (by apply list_elem_of_filter).
    rewrite Hz in Hy'. by apply elem_of_nil in Hy'.
Qed.

Lemma first_wins_urls (p : list Home.HomeData) :
  NoDup (Home.url <$> first_wins p) /\
  (forall u, u ∈ Home.url <$> first_wins p <-> u ∈ Home.url <$> p) /\
  (forall y, y ∈ first_wins p -> y ∈ p).
Proof.
  induction p as [|a p (IHnd & IHin & IHsub)].
  - repeat split; try done. constructor.
  - cbn [first_wins]. rewrite !fmap_cons.
    assert (Hf : forall u, u ∈ Home.url <$> filter (fun y => Home.url y ≠ Home.url a) (first_wins p)
                     <-> u ≠ Home.url a /\ u ∈ Home.url <$> p).
    { intros u. rewrite <- IHin, !list_elem_of_fmap. split.
      - intros (y & -> & Hy). apply list_elem_of_filter in Hy as [Hne Hy].
        split; [done|]. by exists y.
      - intros (Hne & y & -> & Hy). exists y. split; [done|].
        by apply list_elem_of_filter. }
    split; [|split].
    + apply NoDup_cons. split.
      * rewrite Hf. tauto.
      * eapply sublist_NoDup; [exact IHnd|apply fmap_sublist, sublist_filter].
    + intros u. rewrite !elem_of_cons, Hf.
      destruct (decide (u = Home.url a)); tauto.
    + intros y. rewrite !elem_of_cons, list_elem_of_filter.
      intros [?|[_ ?]]; [by left|right; by apply IHsub].
Qed.

(** The map built from the entries keeps a URL at the place of its first
    entry and holds, for it, its last entry. *)
Lemma Map_new_entries (p : list Home.HomeData) :
  Home.Map_new ((fun x => (Home.url x, x)) <$> p) =
    (fun y => (Home.url y, latest_record p y)) <$> first_wins p.
Proof.
  induction p as [|x p IH] using rev_ind; [done|].
  rewrite fmap_app. cbn [fmap list_fmap]. rewrite Map_new_snoc, IH. cbn [fst snd].
  rewrite first_wins_snoc.
  destruct (first_wins_urls p) as (Hnd & Hin & _).
  assert (Hkeys : fst <$> ((fun y => (Home.url y, latest_record p y)) <$> first_wins p)
                  = Home.url <$> first_wins p).
  { rewrite <- list_fmap_compose. by apply list_fmap_ext. }
  case_decide as Hx.
  - rewrite app_nil_r, Map_set_old_key.
    + rewrite <- list_fmap_compose. apply list_fmap_ext. intros i y _. simpl.
      by rewrite latest_record_snoc.
    + by rewrite Hkeys.
    + rewrite Hkeys. by apply Hin.
  - rewrite Map_set_new_key by (rewrite Hkeys, Hin; done).
    rewrite fmap_app. cbn [fmap list_fmap]. f_equal.
    + apply list_fmap_ext. intros i y Hy. f_equal.
      rewrite latest_record_snoc, decide_False; [done|].
      intros Heq. apply Hx. rewrite <- Heq, <- Hin.
      apply list_elem_of_fmap_2. by eapply list_elem_of_lookup_2.
    + by rewrite latest_record_snoc, decide_True.
Qed.

Lemma unique_by_url_spec (results : list (list Home.HomeData)) :
  Home.unique_by_url results =
    latest_record (concat results) <$> first_wins (concat results).
Proof.
  unfold Home.unique_by_url, Home.Map_values. rewrite Map_new_entries.
  rewrite <- list_fmap_compose. by apply list_fmap_ext.
Qed.

Lemma unique_by_url_NoDup (results : list (list Home.HomeData)) :
  NoDup (Home.url <$> Home.unique_by_url results).
Proof.
  rewrite unique_by_url_spec, <- list_fmap_compose.
  destruct (first_wins_urls (concat results)) as (Hnd & _ & _).
  erewrite list_fmap_ext; [exact Hnd|]. intros i y _. simpl. apply latest_record_url.
Qed.

(** C5 as stated fails: two topics return an entry with the same URL and
    different titles; the entry kept is the later one, not the earlier. *)
Lemma merge_keeps_later_record :
  Home.merge half [[entryA]; [entryB]] 0 = Some ([entryB], 0%nat) /\
  first_wins (concat [[entryA]; [entryB]]) = [entryA] /\
  entryA ≠ entryB.
Proof. split; [reflexivity|]. split; [reflexivity|discriminate]. Qed.

(** C5, amended. The merge step flattens the per-topic lists in topic
    order and deduplicates by URL: each URL stays at the place of its
    first entry and carries the record (title) of its last entry. The
    result is randomly permuted and cut to at most 15 entries. So every
    entry retained is the last one of the flattened list with its URL. *)
Theorem merge_first_position_last_record
    (random : nat -> Q) (results : list (list Home.HomeData)) (k : nat) :
  Js.unit_interval random ->
  Home.unique_by_url results =
    latest_record (concat results) <$> first_wins (concat results) /\
  exists m k',
    Home.merge random results k = Some (take 15 m, k') /\
    m ≡ₚ Home.unique_by_url results /\
    (length (take 15 m) <= 15)%nat /\
    (forall x, x ∈ take 15 m ->
       x ∈ concat results /\ latest_record (concat results) x = x).
Proof.
  intros Hr. split; [apply unique_by_url_spec|].
  destruct (shuffle_Permutation random (Home.unique_by_url results) k Hr) as (m & Hsh & Hp).
  exists m, (k + (length (Home.unique_by_url results) - 1))%nat.
  unfold Home.merge. rewrite Hsh. split; [done|]. split; [done|].
  split; [rewrite length_take; lia|].
  intros x Hx%subseteq_take. rewrite <- Hp, unique_by_url_spec in Hx.
  apply list_elem_of_fmap in Hx as (y & -> & Hy).
  apply latest_record_in. by apply (first_wins_urls (concat results)).
Qed.

Lemma merge_first_position_last_record_witness :
  Js.unit_interval half /\
  exists m k',
    Home.merge half [[entryA]; [entryB]] 0 = Some (take 15 m, k') /\
    m ≡ₚ Home.unique_by_url [[entryA]; [entryB]].
Proof.
  assert (H : Js.unit_interval half) by (intros k; unfold half, Qle, Qlt; simpl; lia).
  split; [exact H|].
  destruct (proj2 (merge_first_position_last_record half [[entryA]; [entryB]] 0 H))
    as (m & k' & H1 & H2 & _).
  exact (ex_intro _ m (ex_intro _ k' (conj H1 H2))).
Defined.

(** ** Which displayed lists have pairwise distinct URLs *)

Lemma Home_merge_fulfilled (random : nat -> Q) (results : list (list Home.HomeData))
    (s : Home.State) (msg : string) :
  Js.unit_interval random ->
  exists m k',
    m ≡ₚ Home.unique_by_url results /\
    Js.run_async
      (Js.try_catch_finally
         (results ← Js.await (Js.Fulfilled results);
          merged ← Home.with_rng (Home.merge random results);
          Js.modify (Home.setData merged))
         (Js.modify (Home.setErr msg))
         (Js.modify (Home.setLoading false))) s
    = Some (Js.Normal tt, Home.setLoading false (Home.setData (take 15 m) (Home.setRng k' s))).
Proof.
  intros Hr.
  destruct (shuffle_Permutation random (Home.unique_by_url results) (Home.rng s) Hr)
    as (m & Hsh & Hp).
  exists m, (Home.rng s + (length (Home.unique_by_url results) - 1))%nat.
  split; [done|]. unfold Home.with_rng. js_unfold.
  unfold Home.merge. rewrite Hsh. done.
Qed.

Lemma Home_search_fulfilled (random : nat -> Q) (items : list Home.HomeData) (s : Home.State) :
  Js.unit_interval random ->
  exists m k',
    m ≡ₚ items /\
    Js.run_async (Home.handleSearchSubmit_resume random (Js.Fulfilled items)) s
    = Some (Js.Normal tt, Home.setLoading false (Home.setData (take 18 m) (Home.setRng k' s))).
Proof.
  intros Hr.
  destruct (shuffle_Permutation random items (Home.rng s) Hr) as (m & Hsh & Hp).
  exists m, (Home.rng s + (length items - 1))%nat.
  split; [done|]. unfold Home.handleSearchSubmit_resume, Home.with_rng. js_unfold.
  rewrite Hsh. done.
Qed.

Lemma NoDup_urls_take_Permutation (n : nat) (m l : list Home.HomeData) :
  m ≡ₚ l -> NoDup (Home.url <$> l) -> NoDup (Home.url <$> take n m).
Proof.
  intros Hp Hnd. rewrite fmap_take.
  eapply sublist_NoDup; [|apply sublist_take]. by rewrite Hp.
Qed.

(** C6 as stated fails for a free-text search: the response holds two
    items with the same link, and both are displayed. *)
Lemma search_can_display_one_url_twice :
  exists q s1 s2,
    Home.handleSearchSubmit_begin (Home.setSearchTerm (Js.units " moon ") Home.initial)
      = Some (q, s1) /\
    q = Js.units "moon" /\
    Js.run_async
      (Home.handleSearchSubmit_resume half
         (Home.searchImages (Js.Fulfilled (Some [item1; item2])))) s1
      = Some (Js.Normal tt, s2) /\
    length (Home.shown s2) = 2%nat /\
    ~ NoDup (Home.url <$> Home.shown s2).
Proof.
  eexists _, _, _. split; [reflexivity|]. split; [reflexivity|].
  split; [reflexivity|]. split; [reflexivity|].
  intros Hnd. apply NoDup_cons in Hnd as [Hnot _]. apply Hnot. left.
Qed.

(** C6, amended. The lists displayed by the initial random-topic load and
    by the surprise-me re-roll never hold two entries with the same URL.
    The list displayed by a free-text search is the first 18 entries of a
    permutation of the entries built from the response, without
    deduplication: its URLs are pairwise distinct when those of the
    response are. *)
Theorem merged_lists_have_distinct_urls
    (random : nat -> Q) (results : list (list Home.HomeData))
    (items : list Home.HomeData) (s : Home.State) :
  Js.unit_interval random ->
  (exists s',
      Js.run_async (Home.loadRandom_resume random (Js.Fulfilled results)) s
        = Some (Js.Normal tt, s') /\
      NoDup (Home.url <$> Home.shown s')) /\
  (exists s',
      Js.run_async (Home.surpriseMe_resume random (Js.Fulfilled results)) s
        = Some (Js.Normal tt, s') /\
      NoDup (Home.url <$> Home.shown s')) /\
  (exists s' m,
      Js.run_async (Home.handleSearchSubmit_resume random (Js.Fulfilled items)) s
        = Some (Js.Normal tt, s') /\
      Home.shown s' = take 18 m /\ m ≡ₚ items /\
      (NoDup (Home.url <$> items) -> NoDup (Home.url <$> Home.shown s'))).
Proof.
  intros Hr. split; [|split].
  - destruct (Home_merge_fulfilled random results s Home.loadRandom_error Hr)
      as (m & k' & Hp & Hrun).
    eexists. split; [exact Hrun|]. simpl.
    eapply NoDup_urls_take_Permutation; [exact Hp|apply unique_by_url_NoDup].
  - destruct (Home_merge_fulfilled random results s Home.surpriseMe_error Hr)
      as (m & k' & Hp & Hrun).
    eexists. split; [exact Hrun|]. simpl.
    eapply NoDup_urls_take_Permutation; [exact Hp|apply unique_by_url_NoDup].
  - destruct (Home_search_fulfilled random items s Hr) as (m & k' & Hp & Hrun).
    eexists _, m. split; [exact Hrun|]. simpl. split; [done|]. split; [done|].
    by apply NoDup_urls_take_Permutation.
Qed.

Lemma merged_lists_have_distinct_urls_witness :
  Js.unit_interval half /\
  exists s',
    Js.run_async (Home.loadRandom_resume half (Js.Fulfilled [[entryA]; [entryB]])) Home.initial
      = Some (Js.Normal tt, s') /\
    NoDup (Home.url <$> Home.shown s').
Proof.
  assert (H : Js.unit_interval half) by (intros k; unfold half, Qle, Qlt; simpl; lia).
  exact (conj H (proj1 (merged_lists_have_distinct_urls half [[entryA]; [entryB]] []
                          Home.initial H))).
Defined.

(* ===================================================================== *)
(** * The model on concrete inputs *)
(* ===================================================================== *)

(** With [Math.random()] giving 0.5, 0 and 0.9: swap 3 with 2, then 2
    with 0, then 1 with itself. *)
Example shuffle_four :
  Shuffle.shuffle
    (fun k => match k with O => 1 # 2 | S O => 0 | _ => 9 # 10 end)%Q
    [1; 2; 3; 4]%nat 0 = Some ([4; 2; 1; 3]%nat, 3%nat).
Proof. reflexivity. Qed.

(** A URL keeps the place of its first entry and the record of its last. *)
Example unique_by_url_three :
  Home.unique_by_url
    [[entryA; {| Home.title := "Saturn"; Home.url := "saturn.jpg" |}]; [entryB]]
  = [entryB; {| Home.title := "Saturn"; Home.url := "saturn.jpg" |}].
Proof. reflexivity. Qed.

(** A date without hyphens leaves two segments undefined. *)
Example buildEpicUrl_short_date :
  Epic.buildEpicUrl {| Epic.caption := ""; Epic.date := "2024"; Epic.image := "x";
                       Epic.identifier := "" |}
  = "https://epic.gsfc.nasa.gov/archive/natural/2024/undefined/undefined/png/x.png".
Proof. reflexivity. Qed.

(** An item without a title or without a link. *)
Example searchImages_items_defaults :
  Home.searchImages_items
    [ {| Home.data := None; Home.links := Some [Some "a.jpg"] |};
      {| Home.data := Some [Some "No link"]; Home.links := Some [] |} ]
  = [ {| Home.title := "Untitled"; Home.url := "a.jpg" |} ].
Proof. reflexivity. Qed.

(* ===================================================================== *)
(** * Further properties of the Mars loader *)
(* ===================================================================== *)

Lemma inflight_bound (y : Mars.Sys) (i : nat) :
  tags_inv y -> i ∈ Mars.inflight y -> (1 <= i <= Mars.requestIdRef (Mars.st y))%nat.
Proof.
  intros [Ht Hin] Hi. rewrite Forall_forall in Hin. specialize (Hin i Hi).
  rewrite Ht in Hin. apply list_elem_of_In, in_seq in Hin. lia.
Qed.

Lemma step_loading_inv (y y' : Mars.Sys) (e : Mars.Event) :
  tags_inv y -> loading_inv y -> Mars.step y e = Some y' -> loading_inv y'.
Proof.
  intros Ht [Hl He]. destruct e as [p|id o]; simpl.
  - intros [= <-]. simpl. split; [|by left].
    split; [intros _; apply list_elem_of_here|done].
  - case_decide as Hid; [|done].
    destruct (decide (Mars.requestIdRef (Mars.st y) = id)) as [<-|Hne].
    + assert (Hout : Mars.requestIdRef (Mars.st y) ∉
                filter (fun x => x ≠ Mars.requestIdRef (Mars.st y)) (Mars.inflight y)).
      { intros [Hx _]%list_elem_of_filter. by apply Hx. }
      destruct o as [f|].
      * rewrite loadPhotos_resume_fulfilled. intros [= <-]. simpl. split.
        -- split; [done|]. intros Hx. by apply Hout in Hx.
        -- destruct He as [He|[He Hn]]; [by left|]. by destruct (Hn Hid).
      * rewrite loadPhotos_resume_rejected. intros [= <-]. simpl. split.
        -- split; [done|]. intros Hx. by apply Hout in Hx.
        -- by right.
    + rewrite loadPhotos_resume_stale by done. intros [= <-]. simpl.
      assert (Hsame : Mars.requestIdRef (Mars.st y) ∈ filter (fun x => x ≠ id) (Mars.inflight y)
                      <-> Mars.requestIdRef (Mars.st y) ∈ Mars.inflight y).
      { rewrite list_elem_of_filter. tauto. }
      split; [by rewrite Hsame|].
      destruct He as [He|[He Hn]]; [by left|right]. split; [done|]. by rewrite Hsame.
Qed.

Lemma run_loading_inv (tr : list Mars.Event) :
  forall y y', tags_inv y -> loading_inv y -> Mars.run y tr = Some y' -> loading_inv y'.
Proof.
  induction tr as [|e tr IH]; intros y y' Ht Hl; simpl.
  - by intros [= <-].
  - destruct (Mars.step y e) as [y1|] eqn:Hs; [|done].
    apply IH; [by eapply step_inv|by eapply step_loading_inv].
Qed.

(** X1. Along every run of the Mars page, the page is in its loading
    state exactly while the latest call of the loader is in flight, and
    the error string is either empty or the fixed message, the latter
    only once the latest call has settled: a stale response neither ends
    the loading state nor shows an error. *)
Theorem loading_while_latest_in_flight (tr : list Mars.Event) (y : Mars.Sys) :
  Mars.run Mars.start tr = Some y ->
  (Mars.loading (Mars.st y) = true <-> latest y ∈ Mars.inflight y) /\
  (Mars.err (Mars.st y) = "" \/
   (Mars.err (Mars.st y) = Mars.fetch_error /\ latest y ∉ Mars.inflight y)) /\
  (forall i, i ∈ Mars.inflight y -> (1 <= i <= latest y)%nat).
Proof.
  intros Hrun.
  pose proof (run_inv tr _ _ start_inv Hrun) as Ht.
  assert (H0 : loading_inv Mars.start).
  { split; [|by left]. split; [done|]. intros H. by apply elem_of_nil in H. }
  destruct (run_loading_inv tr _ _ start_inv H0 Hrun) as [Hl He].
  rewrite (latest_requestId y Ht). split; [done|]. split; [done|].
  intros i Hi. by apply inflight_bound.
Qed.

Lemma loading_while_latest_in_flight_witness :
  Mars.run Mars.start (two_calls ++ [Mars.Settle 1 late_answer]) =
    Some (default Mars.start (Mars.run Mars.start (two_calls ++ [Mars.Settle 1 late_answer]))) /\
  Mars.loading
    (Mars.st (default Mars.start
                (Mars.run Mars.start (two_calls ++ [Mars.Settle 1 late_answer])))) = true.
Proof.
  pose proof (loading_while_latest_in_flight (two_calls ++ [Mars.Settle 1 late_answer])
                _ eq_refl) as (Hl & _ & _).
  split; [reflexivity|]. apply Hl. vm_compute. apply list_elem_of_here.
Defined.

(* ===================================================================== *)
(** * The query parameters of the Mars page *)
(* ===================================================================== *)

Lemma MAX_SOL_pos (r : Mars.Rover) : 0 < Mars.MAX_SOL r.
Proof. by destruct r. Qed.

Lemma index_elem_of {T} (a : list T) (i : Z) (x : T) : Js.index a i = Some x -> x ∈ a.
Proof. intros [_ H]%index_Some. by eapply list_elem_of_lookup_2. Qed.

(** X2. The sol typed or dragged is clamped to [0, MAX_SOL] of the
    current rover: a value in that range is taken as it is, a negative
    one becomes 0 and a larger one the maximum; rover and camera stay,
    and entering the resulting sol again changes nothing. *)
Theorem handleSolInput_clamps (v : Z) (s : Mars.State) :
  let s' := Mars.handleSolInput v s in
  let top := Mars.MAX_SOL (Mars.rover (Mars.params s)) in
  0 <= Mars.sol (Mars.params s') <= top /\
  Mars.sol (Mars.params s') =
    (if decide (v < 0) then 0 else if decide (top < v) then top else v) /\
  Mars.rover (Mars.params s') = Mars.rover (Mars.params s) /\
  Mars.camera (Mars.params s') = Mars.camera (Mars.params s) /\
  Mars.handleSolInput (Mars.sol (Mars.params s')) s' = s'.
Proof.
  intros s' top. pose proof (MAX_SOL_pos (Mars.rover (Mars.params s))) as Hpos.
  fold top in Hpos. subst s'. unfold Mars.handleSolInput. simpl. fold top.
  repeat split; try lia.
  - repeat case_decide; lia.
  - unfold Mars.setParams. simpl. do 2 f_equal. lia.
Qed.

(** X3. Choosing a rover selects that rover's first camera, which is one
    of its cameras, and keeps the sol as it is, without clamping it to
    the new rover's maximum: the new parameters are within the bounds of
    the controls exactly when the old sol fits the new rover. *)
Theorem handleRoverChange_first_camera (r : Mars.Rover) (s : Mars.State) :
  let p' := Mars.params (Mars.handleRoverChange r s) in
  Mars.rover p' = r /\
  Mars.CameraOptions r !! 0%nat = Some (Mars.camera p') /\
  Mars.camera p' ∈ Mars.CameraOptions r /\
  Mars.sol p' = Mars.sol (Mars.params s) /\
  (valid_params p' <-> 0 <= Mars.sol (Mars.params s) <= Mars.MAX_SOL r).
Proof.
  intros p'. subst p'. unfold Mars.handleRoverChange, valid_params. simpl.
  assert (Hcam : default "FHAZ" (Mars.CameraOptions r !! 0%nat) ∈ Mars.CameraOptions r)
    by (destruct r; apply list_elem_of_here).
  repeat split; try done; try tauto.
  by destruct r.
Qed.

Lemma randInt_range (random : nat -> Q) (max : Z) (k : nat) :
  Js.unit_interval random -> 0 <= max ->
  0 <= fst (Mars.randInt random max k) <= max /\ snd (Mars.randInt random max k) = S k.
Proof.
  intros Hr Hmax. destruct (Hr k) as [H0 H1]. unfold Mars.randInt. simpl.
  pose proof (floor_mul_range (random k) (max + 1) H0 H1 ltac:(lia)). split; [lia|done].
Qed.

(** X4. For every sequence of [Math.random] values in [0, 1), the Random
    button completes without an exception and sets a rover, one of that
    rover's cameras and a sol between 0 and that rover's maximum; it
    draws three random numbers and leaves the photos, the selection, the
    loading flag and the error as they are. *)
Theorem surprise_picks_valid_params (random : nat -> Q) (s : Mars.State) :
  Js.unit_interval random ->
  exists s',
    Mars.surprise random s = Some s' /\
    valid_params (Mars.params s') /\
    Mars.rover (Mars.params s') ∈ Mars.ROVERS /\
    Mars.rng s' = (Mars.rng s + 3)%nat /\
    Mars.photos s' = Mars.photos s /\ Mars.selected s' = Mars.selected s /\
    Mars.loading s' = Mars.loading s /\ Mars.err s' = Mars.err s /\
    Mars.requestIdRef s' = Mars.requestIdRef s.
Proof.
  intros Hr. unfold Mars.surprise.
  destruct (randInt_range random (Z.of_nat (length Mars.ROVERS) - 1) (Mars.rng s) Hr
              ltac:(simpl; lia)) as [Hr1 Hk1].
  destruct (Mars.randInt random (Z.of_nat (length Mars.ROVERS) - 1) (Mars.rng s))
    as [r k1]. simpl in Hr1, Hk1. subst k1.
  destruct (index_in_range Mars.ROVERS r ltac:(simpl; lia)) as [rv Hrv]. rewrite Hrv.
  assert (Hlen : 0 <= Z.of_nat (length (Mars.CameraOptions rv)) - 1)
    by (destruct rv; simpl; lia).
  destruct (randInt_range random (Z.of_nat (length (Mars.CameraOptions rv)) - 1)
              (S (Mars.rng s)) Hr Hlen) as [Hr2 Hk2].
  destruct (Mars.randInt random (Z.of_nat (length (Mars.CameraOptions rv)) - 1)
              (S (Mars.rng s))) as [c k2]. simpl in Hr2, Hk2. subst k2.
  destruct (index_in_range (Mars.CameraOptions rv) c ltac:(lia)) as [cam Hcam].
  rewrite Hcam.
  pose proof (MAX_SOL_pos rv) as Hpos.
  destruct (randInt_range random (Mars.MAX_SOL rv) (S (S (Mars.rng s))) Hr ltac:(lia))
    as [Hr3 Hk3].
  destruct (Mars.randInt random (Mars.MAX_SOL rv) (S (S (Mars.rng s)))) as [sl k3].
  simpl in Hr3, Hk3. subst k3.
  eexists. split; [reflexivity|]. simpl. unfold valid_params. simpl.
  repeat split; try done; try lia.
  - by eapply index_elem_of.
  - by eapply index_elem_of.
Qed.

Lemma surprise_picks_valid_params_witness :
  Js.unit_interval half /\
  exists s', Mars.surprise half Mars.initial = Some s' /\ valid_params (Mars.params s').
Proof.
  assert (H : Js.unit_interval half) by (intros k; unfold half, Qle, Qlt; simpl; lia).
  destruct (surprise_picks_valid_params half Mars.initial H) as (s' & H1 & H2 & _).
  exact (conj H (ex_intro _ s' (conj H1 H2))).
Defined.

(* ===================================================================== *)
(** * Selection and lightbox of the Mars page *)
(* ===================================================================== *)

(** [findIndex] returns the index of the first element that satisfies the
    predicate. *)
Lemma findIndex_from_first {T} (pred : T -> bool) (a : list T) :
  forall (i : Z) (n : nat) (x : T),
  a !! n = Some x -> pred x = true ->
  exists (m : nat) (y : T),
    Js.findIndex_from pred a i = i + Z.of_nat m /\ (m <= n)%nat /\
    a !! m = Some y /\ pred y = true /\
    (forall j z, (j < m)%nat -> a !! j = Some z -> pred z = false).
Proof.
  induction a as [|h a IH]; intros i n x Hn Hx; [done|].
  cbn [Js.findIndex_from]. destruct (pred h) eqn:Hh.
  - exists 0%nat, h. repeat split; try done; try lia.
  - destruct n as [|n]; [simpl in Hn; congruence|]. simpl in Hn.
    destruct (IH (i + 1) n x Hn Hx) as (m & y & Hf & Hle & Hm & Hy & Hbefore).
    exists (S m), y. repeat split; try done; try lia.
    intros [|j] z Hj Hz; simpl in Hz; [congruence|]. eapply Hbefore; [|done]. lia.
Qed.

Lemma hero_photo (s : Mars.State) (cur : Mars.Photo) :
  Mars.hero s = Mars.HeroPhoto cur ->
  Mars.loading s = false /\
  Mars.currentPhoto (Mars.photos s) (Mars.selected s) = Some cur.
Proof.
  unfold Mars.hero. destruct (Mars.loading s); [done|].
  destruct (Mars.currentPhoto _ _); [|done]. by intros [= ->].
Qed.

(** X5. A click on the hero image opens the lightbox on the first photo
    of the list that has the id of the photo on display: the index set
    is within the list, no earlier photo has that id, it is 0 when
    nothing was selected before, and when the ids of the list are
    pairwise distinct the photo opened is the photo on display. *)
Theorem heroClick_opens_first_with_same_id (s : Mars.State) (cur : Mars.Photo) :
  Mars.hero s = Mars.HeroPhoto cur ->
  exists (m : nat) (x : Mars.Photo),
    Mars.selected (Mars.heroClick s) = Some (Z.of_nat m) /\
    Mars.photos (Mars.heroClick s) = Mars.photos s /\
    Mars.photos s !! m = Some x /\ Mars.id x = Mars.id cur /\
    (forall j z, (j < m)%nat -> Mars.photos s !! j = Some z -> Mars.id z ≠ Mars.id cur) /\
    Mars.lightbox_open (Mars.heroClick s) = true /\
    (Mars.selected s = None -> m = 0%nat) /\
    (NoDup (Mars.id <$> Mars.photos s) -> x = cur).
Proof.
  intros Hhero. destruct (hero_photo s cur Hhero) as [Hload Hcur].
  assert (Hat : exists n : nat, Mars.photos s !! n = Some cur /\
                  (Mars.selected s = None -> n = 0%nat)).
  { unfold Mars.currentPhoto in Hcur. destruct (Mars.selected s) as [i|].
    - apply index_Some in Hcur as [_ Hcur]. eexists. split; [exact Hcur|done].
    - apply index_Some in Hcur as [_ Hcur]. exists 0%nat. split; [exact Hcur|done]. }
  destruct Hat as (n & Hn & Hnone).
  destruct (findIndex_from_first (fun p => bool_decide (Mars.id p = Mars.id cur))
              (Mars.photos s) 0 n cur Hn (bool_decide_eq_true_2 _ eq_refl))
    as (m & x & Hf & Hle & Hm & Hx & Hbefore).
  apply bool_decide_eq_true in Hx.
  exists m, x. unfold Mars.heroClick. rewrite Hhero. unfold Js.findIndex. rewrite Hf.
  simpl. repeat split; try done.
  - intros j z Hj Hz. specialize (Hbefore j z Hj Hz). by apply bool_decide_eq_false in Hbefore.
  - unfold Mars.lightbox_open. simpl. apply bool_decide_eq_true.
    apply index_in_range. apply lookup_lt_Some in Hm. lia.
  - intros Hsel. specialize (Hnone Hsel). lia.
  - intros Hnd.
    assert (m = n); [|subst; congruence].
    eapply NoDup_lookup; [exact Hnd| |].
    + rewrite list_lookup_fmap, Hm. reflexivity.
    + rewrite list_lookup_fmap, Hn. simpl. by rewrite Hx.
Qed.

Lemma heroClick_opens_first_with_same_id_witness :
  Mars.hero (Mars.setSelected None mars3) = Mars.HeroPhoto photo1 /\
  Mars.selected (Mars.heroClick (Mars.setSelected None mars3)) = Some 0.
Proof.
  destruct (heroClick_opens_first_with_same_id (Mars.setSelected None mars3) photo1 eq_refl)
    as (m & x & Hsel & _ & _ & _ & _ & _ & H0 & _).
  rewrite (H0 eq_refl) in Hsel. exact (conj eq_refl Hsel).
Defined.

(** X6. Escape and the close button always leave the lightbox closed,
    also when the photo list is empty and the handler returns early;
    while nothing is selected no key changes anything; and no key, nor
    the close button, touches the photo list. *)
Theorem escape_closes_lightbox (k : Mars.Key) (s : Mars.State) :
  Mars.lightbox_open (Mars.onKey Mars.Escape s) = false /\
  Mars.lightbox_open (Mars.closeLightbox s) = false /\
  (Mars.photos s ≠ [] -> Mars.selected (Mars.onKey Mars.Escape s) = None) /\
  (Mars.selected s = None -> Mars.onKey k s = s) /\
  Mars.photos (Mars.onKey k s) = Mars.photos s /\
  Mars.photos (Mars.closeLightbox s) = Mars.photos s.
Proof.
  assert (Hempty : forall t, Mars.photos t = [] -> Mars.lightbox_open t = false).
  { intros t Ht. unfold Mars.lightbox_open. rewrite Ht.
    destruct (Mars.selected t) as [i|]; [|done].
    apply bool_decide_eq_false. unfold Js.index. case_decide; by intros [? ?]. }
  repeat split.
  - unfold Mars.onKey. case_decide as Hg; [|done].
    destruct Hg as [Hn|Hn].
    + apply Hempty. destruct (Mars.photos s); [done|simpl in Hn; lia].
    + unfold Mars.lightbox_open. by rewrite Hn.
  - unfold Mars.closeLightbox. by destruct (Mars.lightbox_open s) eqn:Ho.
  - intros Hne. unfold Mars.onKey. case_decide as Hg; [|done].
    destruct Hg as [Hn|Hn]; [|done]. destruct (Mars.photos s); [done|simpl in Hn; lia].
  - intros Hsel. unfold Mars.onKey. rewrite decide_True; [done|by right].
  - unfold Mars.onKey. case_decide; [done|]. by destruct k.
  - unfold Mars.closeLightbox. by destruct (Mars.lightbox_open s).
Qed.

Lemma perform_selection_ok (random : nat -> Q) (a : MarsAction) (s : Mars.State) :
  Js.unit_interval random -> selection_ok s ->
  exists s', mars_perform random a s = Some s' /\ selection_ok s'.
Proof.
  intros Hr Hok. unfold selection_ok in Hok.
  assert (Hnav : forall f : Z -> option Z -> option Z,
            (forall n i, 0 <= i < n -> exists j, f n (Some i) = Some j /\ 0 <= j < n) ->
            Mars.selected s ≠ None ->
            selection_ok (Mars.setSelected
                            (f (Z.of_nat (length (Mars.photos s))) (Mars.selected s)) s)).
  { intros f Hf Hsome. unfold selection_ok. simpl.
    destruct (Mars.selected s) as [i|]; [|done].
    destruct (Hf _ i Hok) as (j & -> & Hj). done. }
  assert (Hprev : forall n i, 0 <= i < n ->
            exists j, Mars.previous n (Some i) = Some j /\ 0 <= j < n).
  { intros n i Hi. eexists. split; [reflexivity|].
    destruct (rem_previous n i Hi) as [-> _]. apply Z.mod_pos_bound. lia. }
  assert (Hnext : forall n i, 0 <= i < n ->
            exists j, Mars.next n (Some i) = Some j /\ 0 <= j < n).
  { intros n i Hi. eexists. split; [reflexivity|].
    destruct (rem_next n i Hi) as [-> _]. apply Z.mod_pos_bound. lia. }
  destruct a as [i| |k| | | | | |id o]; simpl.
  - eexists. split; [done|]. unfold Mars.gridClick.
    destruct (Mars.loading s); [done|]. case_decide; [|done].
    unfold selection_ok. simpl. lia.
  - eexists. split; [done|]. destruct (Mars.hero s) as [|cur|] eqn:Hh;
      unfold Mars.heroClick; rewrite Hh; try done.
    destruct (heroClick_opens_first_with_same_id s cur Hh) as (m & x & Hsel & Hph & Hm & _).
    unfold Mars.heroClick in Hsel, Hph. rewrite Hh in Hsel, Hph.
    unfold selection_ok. rewrite Hsel, Hph. apply lookup_lt_Some in Hm. lia.
  - eexists. split; [done|]. unfold Mars.onKey. case_decide as Hg; [done|].
    assert (Mars.selected s ≠ None) by tauto.
    destruct k; [by apply Hnav|by apply Hnav|done|done].
  - eexists. split; [done|]. unfold Mars.clickPrevious.
    destruct (Mars.lightbox_open s) eqn:Ho; [|done]. apply Hnav; [done|].
    unfold Mars.lightbox_open in Ho. by destruct (Mars.selected s).
  - eexists. split; [done|]. unfold Mars.clickNext.
    destruct (Mars.lightbox_open s) eqn:Ho; [|done]. apply Hnav; [done|].
    unfold Mars.lightbox_open in Ho. by destruct (Mars.selected s).
  - eexists. split; [done|]. unfold Mars.closeLightbox.
    by destruct (Mars.lightbox_open s).
  - destruct (shuffle_Permutation random (Mars.photos s) (Mars.rng s) Hr) as (l & Hsh & Hp).
    unfold Mars.shuffleOrder. rewrite Hsh. eexists. split; [done|].
    unfold selection_ok. simpl. by rewrite <- (Permutation_length Hp).
  - eexists. split; [done|]. done.
  - destruct (decide (Mars.requestIdRef s = id)) as [<-|Hne].
    + destruct o as [f|].
      * rewrite loadPhotos_resume_fulfilled. eexists. split; [done|].
        unfold selection_ok. simpl. case_decide; [done|]. lia.
      * rewrite loadPhotos_resume_rejected. eexists. split; [done|]. done.
    + rewrite loadPhotos_resume_stale by done. eexists. by split.
Qed.

(** X7. Whatever the user does on the Mars page (grid, hero, keys,
    lightbox buttons, Shuffle, Refresh) and however the responses of the
    loader arrive, every handler completes and the selected index, when
    there is one, is an index of the photo list. So the lightbox is open
    exactly when an index is selected, and with a non-empty list the
    hero has a photo to show. *)
Theorem selection_stays_in_range
    (random : nat -> Q) (acts : list MarsAction) (s : Mars.State) :
  Js.unit_interval random ->
  selection_ok s ->
  exists s',
    mars_perform_all random acts s = Some s' /\
    selection_ok s' /\
    (Mars.lightbox_open s' = true <-> Mars.selected s' ≠ None) /\
    (Mars.photos s' ≠ [] ->
       is_Some (Mars.currentPhoto (Mars.photos s') (Mars.selected s'))).
Proof.
  intros Hr. revert s. induction acts as [|a acts IH]; intros s Hok.
  - exists s. split; [done|]. split; [done|]. unfold selection_ok in Hok. split.
    + unfold Mars.lightbox_open. destruct (Mars.selected s) as [i|]; [|done].
      split; [done|]. intros _. apply bool_decide_eq_true. by apply index_in_range.
    + intros Hne. unfold Mars.currentPhoto.
      destruct (Mars.selected s) as [i|]; apply index_in_range; [done|].
      destruct (Mars.photos s); [done|simpl; lia].
  - destruct (perform_selection_ok random a s Hr Hok) as (s1 & Hs1 & Hok1).
    destruct (IH s1 Hok1) as (s' & Hrun & Hrest).
    exists s'. split; [|done]. simpl. by rewrite Hs1.
Qed.

Lemma selection_stays_in_range_witness :
  Js.unit_interval half /\ selection_ok Mars.initial /\
  exists s',
    mars_perform_all half
      [Refresh; Settled 1 last_answer; GridClick 1; Press Mars.ArrowRight;
       Press Mars.ArrowRight; ShuffleOrder; HeroClick] Mars.initial = Some s' /\
    selection_ok s'.
Proof.
  assert (H : Js.unit_interval half) by (intros k; unfold half, Qle, Qlt; simpl; lia).
  assert (H0 : selection_ok Mars.initial) by exact I.
  destruct (selection_stays_in_range half
              [Refresh; Settled 1 last_answer; GridClick 1; Press Mars.ArrowRight;
               Press Mars.ArrowRight; ShuffleOrder; HeroClick] Mars.initial H H0)
    as (s' & H1 & H2 & _).
  exact (conj H (conj H0 (ex_intro _ s' (conj H1 H2)))).
Defined.

(* ===================================================================== *)
(** * Further properties of the debounce *)
(* ===================================================================== *)

(** X8. A render that leaves rover, camera and sol as they are does not
    restart a pending timer: the fetch still runs at the original
    deadline, with the parameters captured then. Unmounting before the
    deadline clears the timer, and no fetch runs afterwards. *)
Theorem timer_restarts_only_on_change
    (d : Mars.Debounce) (h : nat) (tm : Mars.Timer) (t T : Z) :
  Mars.timers d = [(h, tm)] ->
  Mars.cleanup_handle d = Some h ->
  t < Mars.deadline tm ->
  Mars.deadline tm <= T ->
  Mars.render t (Mars.deps d) d = d /\
  Mars.log (Mars.elapse T (Mars.render t (Mars.deps d) d)) =
    Mars.log d ++ [Mars.Fetch (Mars.deadline tm) (Mars.captured tm)] /\
  Mars.log (Mars.elapse T (Mars.unmount t d)) = Mars.log d ++ [Mars.Cleared t tm] /\
  Mars.timers (Mars.elapse T (Mars.unmount t d)) = [].
Proof.
  intros Htm Hh Ht HT.
  assert (Hrender : Mars.render t (Mars.deps d) d = d).
  { unfold Mars.render.
    rewrite elapse_not_due by (rewrite Htm; repeat constructor; done).
    by rewrite decide_True. }
  split; [done|]. rewrite Hrender. split.
  - by rewrite (elapse_due d h tm T Htm HT).
  - unfold Mars.unmount, Mars.cleanup. rewrite Hh, Htm.
    rewrite filter_cons_False by (intros Hne; by apply Hne).
    rewrite filter_cons_True by done. rewrite !filter_nil.
    unfold Mars.elapse. cbn [Mars.timers Mars.log]. rewrite !filter_nil. simpl.
    by rewrite app_nil_r.
Qed.

Lemma timer_restarts_only_on_change_witness :
  Mars.log (Mars.elapse 600 (Mars.render 300 p0 (Mars.mount 0 p0))) = [Mars.Fetch 500 p0] /\
  Mars.log (Mars.elapse 600 (Mars.unmount 300 (Mars.mount 0 p0))) =
    [Mars.Cleared 300 {| Mars.deadline := 500; Mars.captured := p0 |}].
Proof.
  destruct (timer_restarts_only_on_change (Mars.mount 0 p0) 1
              {| Mars.deadline := 500; Mars.captured := p0 |} 300 600
              eq_refl eq_refl ltac:(simpl; lia) ltac:(simpl; lia)) as (_ & H1 & H2 & _).
  exact (conj H1 H2).
Defined.

(** A change once the only timer is due: the timer runs, then a new one
    is started. *)
Lemma render_change_due (d : Mars.Debounce) (h : nat) (tm : Mars.Timer)
    (t : Z) (p : Mars.Params) :
  Mars.timers d = [(h, tm)] -> Mars.deadline tm <= t -> p ≠ Mars.deps d ->
  Mars.render t p d =
    {| Mars.deps := p;
       Mars.cleanup_handle := Some (Mars.next_handle d);
       Mars.timers := [(Mars.next_handle d, {| Mars.deadline := t + 500; Mars.captured := p |})];
       Mars.next_handle := S (Mars.next_handle d);
       Mars.log := Mars.log d ++ [Mars.Fetch (Mars.deadline tm) (Mars.captured tm)] |}.
Proof.
  intros Htm Ht Hp. unfold Mars.render. rewrite (elapse_due d h tm t Htm Ht).
  cbn [Mars.deps]. rewrite decide_False by done.
  unfold Mars.effect, Mars.cleanup. cbn [Mars.cleanup_handle].
  destruct (Mars.cleanup_handle d) as [h0|]; [|done].
  cbn [Mars.timers Mars.next_handle Mars.log]. rewrite !filter_nil. simpl.
  by rewrite app_nil_r.
Qed.

Lemma elapse_renders_spaced (cs : list (Z * Mars.Params)) :
  forall (d : Mars.Debounce) (h : nat) (t : Z) (p : Mars.Params) (T : Z),
  Mars.timers d = [(h, {| Mars.deadline := t + 500; Mars.captured := p |})] ->
  Mars.deps d = p ->
  spaced t p cs ->
  fst (List.last cs (t, p)) + 500 <= T ->
  Mars.log (Mars.elapse T (Mars.renders d cs)) = Mars.log d ++ (fetch_of <$> (t, p) :: cs) /\
  Mars.timers (Mars.elapse T (Mars.renders d cs)) = [].
Proof.
  induction cs as [|[t' p'] cs IH]; intros d h t p T Htm Hdeps Hs HT.
  - cbn [List.last fst] in HT. unfold Mars.renders. cbn [fold_left].
    by rewrite (elapse_due d h _ T Htm HT).
  - destruct Hs as (Hne & Htime & Hs). simpl in Hne, Htime, Hs.
    rewrite last_cons_default in HT. rewrite renders_cons. cbn [fst snd].
    rewrite (render_change_due d h _ t' p' Htm) by (simpl; (lia || congruence)).
    match goal with
    | |- context [Mars.renders ?d1 cs] =>
        destruct (IH d1 (Mars.next_handle d) t' p' T eq_refl eq_refl Hs HT) as [-> ->]
    end.
    cbn [Mars.log Mars.deadline Mars.captured]. by rewrite <- app_assoc.
Qed.

(** X9. Changes of the query parameters that are each at least 500 ms
    after the one before all fetch: once 500 ms have passed since the
    last one, the log holds one fetch per change, in order, each 500 ms
    after its change and with its parameters, and no timer was cleared. *)
Theorem spaced_changes_all_fetch
    (d0 : Mars.Debounce) (t1 : Z) (p1 : Mars.Params) (cs : list (Z * Mars.Params)) (T : Z) :
  Mars.timers d0 = [] ->
  p1 ≠ Mars.deps d0 ->
  spaced t1 p1 cs ->
  fst (List.last cs (t1, p1)) + 500 <= T ->
  Mars.log (Mars.elapse T (Mars.renders d0 ((t1, p1) :: cs))) =
    Mars.log d0 ++ (fetch_of <$> (t1, p1) :: cs) /\
  Mars.timers (Mars.elapse T (Mars.renders d0 ((t1, p1) :: cs))) = [].
Proof.
  intros Hidle Hne Hs HT.
  rewrite renders_cons. cbn [fst snd]. rewrite (render_change_idle d0 t1 p1 Hidle Hne).
  match goal with
  | |- context [Mars.renders ?d1 cs] =>
      destruct (elapse_renders_spaced cs d1 (Mars.next_handle d0) t1 p1 T
                  eq_refl eq_refl Hs HT) as [-> ->]
  end.
  done.
Qed.

Lemma spaced_changes_all_fetch_witness :
  Mars.log (Mars.elapse 3000 (Mars.renders mounted [(1000, pA); (1600, pB); (2400, pC)])) =
    [Mars.Fetch 500 p0; Mars.Fetch 1500 pA; Mars.Fetch 2100 pB; Mars.Fetch 2900 pC].
Proof.
  exact (proj1 (spaced_changes_all_fetch mounted 1000 pA [(1600, pB); (2400, pC)] 3000
                  eq_refl ltac:(discriminate)
                  ltac:(simpl; repeat split; (discriminate || lia))
                  ltac:(simpl; lia))).
Defined.

(** X10. The first load is debounced like a change: when the page mounts
    at [t0] and the parameters then change in a burst, each change less
    than 500 ms after the one before (the first less than 500 ms after
    the mount), every timer but the last is cleared before its deadline,
    the timer of the mount included, and the only fetch is the one 500 ms
    after the last change, with its parameters; with no change at all it
    is the fetch of the initial parameters at [t0 + 500]. No timer is
    left. *)
Theorem mount_is_debounced
    (t0 : Z) (p : Mars.Params) (cs : list (Z * Mars.Params)) (T : Z) :
  rapid t0 p cs ->
  fst (List.last cs (t0, p)) + 500 <= T ->
  Mars.log (Mars.elapse T (Mars.renders (Mars.mount t0 p) cs)) =
    cancellations t0 p cs ++
    [Mars.Fetch (fst (List.last cs (t0, p)) + 500) (snd (List.last cs (t0, p)))] /\
  Forall cleared_in_time (cancellations t0 p cs) /\
  Mars.timers (Mars.elapse T (Mars.renders (Mars.mount t0 p) cs)) = [].
Proof.
  intros Hr HT.
  destruct (renders_rapid cs (Mars.mount t0 p) 1 t0 p eq_refl eq_refl eq_refl Hr)
    as (h' & n' & ->).
  erewrite elapse_due; [|reflexivity|done]. cbn [Mars.log Mars.timers].
  split; [done|]. split; [by apply cancellations_in_time|done].
Qed.

Lemma mount_is_debounced_witness :
  Mars.log (Mars.elapse 1000 (Mars.renders (Mars.mount 0 p0) [(200, pA)])) =
    [Mars.Cleared 200 {| Mars.deadline := 500; Mars.captured := p0 |}; Mars.Fetch 700 pA].
Proof.
  exact (proj1 (mount_is_debounced 0 p0 [(200, pA)] 1000
                  ltac:(simpl; repeat split; (discriminate || lia))
                  ltac:(simpl; lia))).
Defined.

(* ===================================================================== *)
(** * Further properties of the Home page *)
(* ===================================================================== *)

Lemma SEED_TOPICS_NoDup : NoDup Home.SEED_TOPICS.
Proof. apply (bool_decide_unpack _). by vm_compute. Qed.

(** X11. [pickN(arr, n)] returns [n] elements of [arr] (all of them when
    [arr] is shorter), without repetition when [arr] has none, and draws
    one random number per element of [arr] but the first. In particular
    the topics picked on mount and by "Surprise me" are three different
    seed topics. *)
Theorem pickN_picks_distinct_elements
    (T : Type) (random : nat -> Q) (arr : list T) (n k : nat) :
  Js.unit_interval random ->
  (exists l,
      Home.pickN random arr n k = Some (l, (k + (length arr - 1))%nat) /\
      length l = min n (length arr) /\
      (forall x, x ∈ l -> x ∈ arr) /\
      (NoDup arr -> NoDup l)) /\
  (exists topics k',
      Home.pickN random Home.SEED_TOPICS 3 k = Some (topics, k') /\
      length topics = 3%nat /\ NoDup topics /\
      (forall x, x ∈ topics -> x ∈ Home.SEED_TOPICS)).
Proof.
  intros Hr.
  assert (Hgen : forall (U : Type) (a : list U) (m : nat),
            exists l, Home.pickN random a m k = Some (l, (k + (length a - 1))%nat) /\
                      length l = min m (length a) /\
                      (forall x, x ∈ l -> x ∈ a) /\ (NoDup a -> NoDup l)).
  { intros U a m. destruct (shuffle_Permutation random a k Hr) as (l & Hsh & Hp).
    exists (take m l). unfold Home.pickN, Js.slice0. rewrite Hsh.
    split; [done|]. split; [by rewrite length_take, (Permutation_length Hp)|]. split.
    - intros x Hx%subseteq_take. by rewrite Hp.
    - intros Hnd. eapply sublist_NoDup; [|apply sublist_take]. by rewrite <- Hp. }
  split; [apply Hgen|].
  destruct (Hgen _ Home.SEED_TOPICS 3%nat) as (l & Hl & Hlen & Hsub & Hnd).
  exists l, (k + (length Home.SEED_TOPICS - 1))%nat.
  split; [done|]. split; [done|]. split; [apply Hnd, SEED_TOPICS_NoDup|done].
Qed.

Lemma pickN_picks_distinct_elements_witness :
  Js.unit_interval half /\
  exists topics k',
    Home.pickN half Home.SEED_TOPICS 3 0 = Some (topics, k') /\
    length topics = 3%nat /\ NoDup topics.
Proof.
  assert (H : Js.unit_interval half) by (intros k; unfold half, Qle, Qlt; simpl; lia).
  destruct (proj2 (pickN_picks_distinct_elements nat half [] 0 0 H))
    as (topics & k' & H1 & H2 & H3 & _).
  exact (conj H (ex_intro _ topics (ex_intro _ k' (conj H1 (conj H2 H3))))).
Defined.

Lemma or_else_nonempty (x : option string) (d : string) : d ≠ "" -> Home.or_else x d ≠ "".
Proof. intros Hd. unfold Home.or_else. destruct x as [s|]; [|done]. by case_decide. Qed.

(** X12. The entries that [searchImages] builds from a response all have
    a non-empty URL and a non-empty title ("Untitled" when the item has
    none); an item without a first link, or with an empty one, is
    dropped, so there are at most as many entries as items; an item with
    a non-empty first link gives the entry with that link as URL. *)
Theorem searchImages_items_have_urls (items : list Home.Item) (it : Home.Item) (u : string) :
  Forall (fun x => Home.url x ≠ "" /\ Home.title x ≠ "") (Home.searchImages_items items) /\
  (length (Home.searchImages_items items) <= length items)%nat /\
  (Home.first_of (Home.links it) = None -> Home.searchImages_items [it] = []) /\
  (Home.first_of (Home.links it) = Some "" -> Home.searchImages_items [it] = []) /\
  (it ∈ items -> Home.first_of (Home.links it) = Some u -> u ≠ "" ->
     {| Home.title := Home.or_else (Home.first_of (Home.data it)) "Untitled"; Home.url := u |}
       ∈ Home.searchImages_items items).
Proof.
  unfold Home.searchImages_items. repeat split.
  - apply Forall_forall. intros x [Hu Hx]%list_elem_of_filter. split; [done|].
    apply list_elem_of_fmap in Hx as (i & -> & _). simpl. by apply or_else_nonempty.
  - etrans; [apply length_filter|]. by rewrite length_fmap.
  - intros Hn. simpl. rewrite Hn. done.
  - intros Hn. simpl. rewrite Hn. done.
  - intros Hin Hl Hu. apply list_elem_of_filter. split; [done|].
    apply list_elem_of_fmap. exists it. split; [|done]. f_equal.
    rewrite Hl. unfold Home.or_else. by rewrite decide_False.
Qed.

Lemma Promise_all_Fulfilled {A} (ps : list (Js.outcome A)) (vs : list A) :
  Home.Promise_all ps = Js.Fulfilled vs <-> ps = Js.Fulfilled <$> vs.
Proof.
  revert vs. induction ps as [|[v|] ps IH]; intros vs; simpl.
  - split; [by intros [= <-]|]. destruct vs; [done|discriminate].
  - destruct (Home.Promise_all ps) as [ws|] eqn:Hps.
    + split.
      * intros [= <-]. simpl. f_equal. by apply IH.
      * destruct vs as [|w vs]; [discriminate|]. simpl. intros [= -> Hvs].
        apply IH in Hvs. congruence.
    + split; [done|]. destruct vs as [|w vs]; [discriminate|]. simpl. intros [= -> Hvs].
      apply IH in Hvs. congruence.
  - split; [done|]. destruct vs; discriminate.
Qed.

Lemma Promise_all_Rejected {A} (ps : list (Js.outcome A)) :
  Home.Promise_all ps = Js.Rejected <-> Js.Rejected ∈ ps.
Proof.
  induction ps as [|[v|] ps IH]; simpl.
  - split; [done|]. by intros ?%elem_of_nil.
  - rewrite elem_of_cons. destruct (Home.Promise_all ps) as [ws|].
    + split; [done|]. intros [?|Hin]; [done|]. by apply IH in Hin.
    + split; [|done]. intros _. right. by apply IH.
  - split; [|done]. intros _. apply list_elem_of_here.
Qed.

(** X13. [Promise.all] is fulfilled exactly when every promise is, with
    the values in the order of the promises, and rejected exactly when
    at least one promise is rejected: one failed topic search fails the
    whole load, whatever the others returned. *)
Theorem Promise_all_all_or_nothing (A : Type) (ps : list (Js.outcome A)) (vs : list A) :
  (Home.Promise_all ps = Js.Fulfilled vs <-> ps = Js.Fulfilled <$> vs) /\
  (Home.Promise_all ps = Js.Rejected <-> Js.Rejected ∈ ps) /\
  (Home.Promise_all ps = Js.Fulfilled vs -> length vs = length ps).
Proof.
  split; [apply Promise_all_Fulfilled|]. split; [apply Promise_all_Rejected|].
  intros ->%Promise_all_Fulfilled. by rewrite length_fmap.
Qed.


Lemma searchImages_Fulfilled (r : Js.outcome (option (list Home.Item))) (l : list Home.HomeData) :
  Home.searchImages r = Js.Fulfilled l ->
  Forall (fun x => Home.url x ≠ "" /\ Home.title x ≠ "") l.
Proof.
  destruct r as [[items|]|]; simpl; intros [= <-]; [|constructor].
  apply (searchImages_items_have_urls items {| Home.data := None; Home.links := None |} "").
Qed.

(** X14. The result of the initial load: when none of the topic searches
    fails, then in whatever state the responses arrive, the list
    displayed afterwards holds at most 15 entries, each one built from
    some response, with a non-empty URL and a non-empty title, and no URL
    twice; loading is off, and the error string is what it was when the
    responses arrived (the load itself writes it only before the
    searches start, to clear it). *)
Theorem loadRandom_displays_response_entries
    (random : nat -> Q) (responses : list (Js.outcome (option (list Home.Item))))
    (s : Home.State) :
  Js.unit_interval random ->
  Js.Rejected ∉ responses ->
  exists results s',
    Home.Promise_all (Home.searchImages <$> responses) = Js.Fulfilled results /\
    Js.run_async (Home.loadRandom_resume random (Js.Fulfilled results)) s
      = Some (Js.Normal tt, s') /\
    (length (Home.shown s') <= 15)%nat /\
    Forall (fun x => x ∈ concat results /\ Home.url x ≠ "" /\ Home.title x ≠ "")
      (Home.shown s') /\
    NoDup (Home.url <$> Home.shown s') /\
    Home.loading s' = false /\ Home.err s' = Home.err s /\
    Home.err (Home.loadRandom_begin s) = "".
Proof.
  intros Hr Hnone.
  destruct (Home.Promise_all (Home.searchImages <$> responses)) as [results|] eqn:Hall.
  2:{ apply Promise_all_Rejected, list_elem_of_fmap in Hall as ([[?|]|] & Hy & Hin);
        simpl in Hy; try discriminate. done. }
  destruct (Home_merge_fulfilled random results s Home.loadRandom_error Hr)
    as (m & k' & Hp & Hrun).
  exists results. eexists. split; [done|]. split; [exact Hrun|]. simpl.
  split; [rewrite length_take; lia|]. split; [|split; [|done]].
  - apply Forall_forall. intros x Hx%subseteq_take.
    rewrite Hp, unique_by_url_spec in Hx.
    apply list_elem_of_fmap in Hx as (y & -> & Hy).
    apply (first_wins_urls (concat results)) in Hy.
    destruct (latest_record_in (concat results) y Hy) as [Hin _]. split; [done|].
    apply Promise_all_Fulfilled in Hall.
    apply list_elem_of_In, in_concat in Hin as (l & Hl & Hxl).
    apply list_elem_of_In in Hl, Hxl.
    assert (Hl' : Js.Fulfilled l ∈ Home.searchImages <$> responses).
    { rewrite Hall. by apply list_elem_of_fmap_2. }
    apply list_elem_of_fmap in Hl' as (r & Hrl & _). symmetry in Hrl.
    apply searchImages_Fulfilled in Hrl. rewrite Forall_forall in Hrl. by apply Hrl.
  - eapply NoDup_urls_take_Permutation; [exact Hp|apply unique_by_url_NoDup].
Qed.

(** The responses arrive after a search has failed in between: the
    entries are displayed under the message of that search. *)
Lemma loadRandom_displays_response_entries_witness :
  Js.unit_interval half /\
  (Js.Rejected ∉ [Js.Fulfilled (Some [item1]); Js.Fulfilled None;
                  Js.Fulfilled (Some [item2])]) /\
  exists results s',
    Js.run_async (Home.loadRandom_resume half (Js.Fulfilled results))
      (Home.setErr Home.search_error (Home.loadRandom_begin Home.initial))
      = Some (Js.Normal tt, s') /\
    NoDup (Home.url <$> Home.shown s') /\
    Home.err s' = Home.search_error.
Proof.
  assert (H : Js.unit_interval half) by (intros k; unfold half, Qle, Qlt; simpl; lia).
  assert (H0 : Js.Rejected ∉
            [Js.Fulfilled (Some [item1]); Js.Fulfilled None; Js.Fulfilled (Some [item2])])
    by (intros Hin; repeat (apply elem_of_cons in Hin as [Hin|Hin]; [discriminate|]);
        by apply elem_of_nil in Hin).
  destruct (loadRandom_displays_response_entries half _
              (Home.setErr Home.search_error (Home.loadRandom_begin Home.initial)) H H0)
    as (results & s' & _ & H1 & _ & _ & H2 & _ & H3 & _).
  exact (conj H (conj H0 (ex_intro _ results (ex_intro _ s' (conj H1 (conj H2 H3)))))).
Defined.

(** X15. One failed topic search fails the whole initial load: the list
    on display stays as it was, whatever the other searches returned,
    the fixed message is shown and loading ends. *)
Theorem loadRandom_fails_as_a_whole
    (random : nat -> Q) (responses : list (Js.outcome (option (list Home.Item))))
    (s : Home.State) :
  Js.Rejected ∈ responses ->
  exists s',
    Js.run_async
      (Home.loadRandom_resume random (Home.Promise_all (Home.searchImages <$> responses)))
      (Home.loadRandom_begin s) = Some (Js.Normal tt, s') /\
    Home.shown s' = Home.shown s /\
    Home.err s' = Home.loadRandom_error /\
    Home.loading s' = false.
Proof.
  intros Hin.
  assert (Hall : Home.Promise_all (Home.searchImages <$> responses) = Js.Rejected).
  { apply Promise_all_Rejected, list_elem_of_fmap. by exists Js.Rejected. }
  rewrite Hall. eexists. split; [apply Home_loadRandom_rejected|]. done.
Qed.

Lemma loadRandom_fails_as_a_whole_witness :
  (Js.Rejected ∈ [Js.Fulfilled (Some [item1]); Js.Rejected]) /\
  exists s',
    Js.run_async
      (Home.loadRandom_resume half
         (Home.Promise_all (Home.searchImages <$> [Js.Fulfilled (Some [item1]); Js.Rejected])))
      (Home.loadRandom_begin Home.initial) = Some (Js.Normal tt, s') /\
    Home.shown s' = [].
Proof.
  assert (H0 : Js.Rejected ∈ [Js.Fulfilled (Some [item1]); Js.Rejected])
    by (apply list_elem_of_further, list_elem_of_here).
  destruct (loadRandom_fails_as_a_whole half _ Home.initial H0) as (s' & H1 & H2 & _).
  exact (conj H0 (ex_intro _ s' (conj H1 H2))).
Defined.

Lemma filter_all {A} (P : A -> Prop) `{forall x, Decision (P x)} (l : list A) :
  Forall P l -> filter P l = l.
Proof.
  induction 1 as [|x l Hx Hl IH]; [done|]. rewrite filter_cons_True by done. by rewrite IH.
Qed.

Lemma first_wins_NoDup_id (l : list Home.HomeData) :
  NoDup (Home.url <$> l) -> first_wins l = l.
Proof.
  induction l as [|x l IH]; [done|]. rewrite fmap_cons. intros [Hx Hnd]%NoDup_cons.
  cbn [first_wins]. rewrite IH by done. f_equal.
  apply filter_all. apply Forall_forall. intros y Hy Heq. apply Hx. rewrite <- Heq.
  by apply list_elem_of_fmap_2.
Qed.

Lemma first_wins_length (l : list Home.HomeData) : (length (first_wins l) <= length l)%nat.
Proof.
  induction l as [|x l IH]; [done|]. cbn [first_wins length].
  pose proof (length_filter (fun y => Home.url y ≠ Home.url x) (first_wins l)). lia.
Qed.

(** X16. The merged display holds as many entries as there are different
    URLs in the results, up to 15: never more than 15 nor more than the
    results hold, and exactly the smaller of 15 and the number of results
    when no URL occurs twice (12 for topics that return 5, 0 and 7
    entries with different URLs). *)
Theorem merged_count
    (random : nat -> Q) (results : list (list Home.HomeData)) (k : nat) :
  Js.unit_interval random ->
  exists m k',
    Home.merge random results k = Some (m, k') /\
    length m = min 15 (length (first_wins (concat results))) /\
    (length m <= 15)%nat /\ (length m <= length (concat results))%nat /\
    (NoDup (Home.url <$> concat results) -> length m = min 15 (length (concat results))).
Proof.
  intros Hr.
  destruct (shuffle_Permutation random (Home.unique_by_url results) k Hr) as (l & Hsh & Hp).
  exists (take 15 l). eexists. unfold Home.merge, Js.slice0. rewrite Hsh.
  split; [done|].
  assert (Hlen : length (take 15 l) = min 15 (length (first_wins (concat results)))).
  { rewrite length_take, <- (Permutation_length Hp), unique_by_url_spec.
    by rewrite length_fmap. }
  pose proof (first_wins_length (concat results)).
  split; [done|]. split; [lia|]. split; [lia|].
  intros Hnd. by rewrite Hlen, first_wins_NoDup_id.
Qed.

Lemma merged_count_witness :
  Js.unit_interval half /\
  exists m k', Home.merge half [[entryA]; []; [entryB]] 0 = Some (m, k') /\ length m = 1%nat.
Proof.
  assert (H : Js.unit_interval half) by (intros k; unfold half, Qle, Qlt; simpl; lia).
  destruct (merged_count half [[entryA]; []; [entryB]] 0 H) as (m & k' & H1 & H2 & _).
  exact (conj H (ex_intro _ m (ex_intro _ k' (conj H1 H2)))).
Defined.

(* ===================================================================== *)
(** * The search term *)
(* ===================================================================== *)

Lemma all_space_app (s t : list N) : all_space (s ++ t) = all_space s && all_space t.
Proof. apply forallb_app. Qed.

Lemma all_space_reverse (s : list N) : all_space (reverse s) = all_space s.
Proof.
  induction s as [|a s IH]; [done|]. rewrite reverse_cons, all_space_app, IH. simpl.
  by rewrite andb_true_r, andb_comm.
Qed.

(** [trim_start] removes a prefix of white space, all of it. *)
Lemma trim_start_split (s : list N) :
  exists sp, s = sp ++ Home.trim_start s /\ all_space sp = true /\
             (Home.trim_start s = [] \/
              exists a r, Home.trim_start s = a :: r /\ Home.is_white_space a = false).
Proof.
  induction s as [|a s (sp & Hs & Hsp & Hrest)].
  - exists []. split; [done|]. split; [done|by left].
  - cbn [Home.trim_start]. destruct (Home.is_white_space a) eqn:Ha.
    + exists (a :: sp). split; [by rewrite <- app_comm_cons, <- Hs|].
      split; [|done]. unfold all_space in *. cbn [forallb]. by rewrite Ha.
    + exists []. split; [done|]. split; [done|]. right. by exists a, s.
Qed.

Lemma trim_start_all_space (s : list N) :
  Home.trim_start s = [] <-> all_space s = true.
Proof.
  induction s as [|a s IH]; [done|]. unfold all_space in *. cbn [Home.trim_start forallb].
  destruct (Home.is_white_space a); [done|]. split; discriminate.
Qed.

Lemma trim_start_fixed (a : N) (r : list N) :
  Home.is_white_space a = false -> Home.trim_start (a :: r) = a :: r.
Proof. intros Ha. cbn [Home.trim_start]. by rewrite Ha. Qed.

(** What [trim] returns for a term that is not all white space. *)
Lemma trim_nonblank (t : list N) :
  all_space t = false ->
  exists a b, head (Home.trim t) = Some a /\ Home.is_white_space a = false /\
              last (Home.trim t) = Some b /\ Home.is_white_space b = false.
Proof.
  intros Ht. unfold Home.trim.
  destruct (trim_start_split t) as (sp & Hsplit & Hsp & [Hnil|(a & r & Hu & Ha)]).
  { apply trim_start_all_space in Hnil. congruence. }
  set (u := Home.trim_start t) in *.
  destruct (trim_start_split (reverse u))
    as (sp2 & Hsplit2 & Hsp2 & [Hnil|(b & r2 & Hv & Hb)]).
  { apply trim_start_all_space in Hnil. rewrite all_space_reverse, Hu in Hnil.
    unfold all_space in Hnil. cbn [forallb] in Hnil. by rewrite Ha in Hnil. }
  set (v := Home.trim_start (reverse u)) in *.
  exists a, b. split; [|split; [done|split; [|done]]].
  - rewrite head_reverse.
    assert (Hlast : last (reverse u) = Some a) by (by rewrite last_reverse, Hu).
    rewrite Hsplit2, Hv, last_app_cons in Hlast. by rewrite Hv.
  - by rewrite last_reverse, Hv.
Qed.

Lemma trim_of_trimmed (s : list N) (a b : N) :
  head s = Some a -> Home.is_white_space a = false ->
  last s = Some b -> Home.is_white_space b = false ->
  Home.trim s = s.
Proof.
  intros Hf Ha Hl Hb. unfold Home.trim.
  apply head_Some in Hf as [r ->]. rewrite (trim_start_fixed a r Ha).
  rewrite <- head_reverse in Hl. apply head_Some in Hl as [r' Hrev].
  rewrite Hrev, (trim_start_fixed b r' Hb), <- Hrev. apply reverse_involutive.
Qed.

(** X17. A search is submitted exactly when the term holds something else
    than white space, where white space is what [trim] strips: the white
    space and line terminator code points of the language, no-break and
    other Unicode spaces included. A blank term does nothing at all.
    Otherwise the query sent is the trimmed term: it is not empty, it
    starts and ends with a code unit that is not white space, and
    trimming it again gives it back; the page enters its loading state
    with the error cleared and the list on display untouched. *)
Theorem search_submits_trimmed_term (s : Home.State) :
  (all_space (Home.searchTerm s) = true -> Home.handleSearchSubmit_begin s = None) /\
  (all_space (Home.searchTerm s) = false ->
     exists q a b,
       Home.handleSearchSubmit_begin s =
         Some (q, Home.setErr "" (Home.setLoading true s)) /\
       q = Home.trim (Home.searchTerm s) /\
       head q = Some a /\ Home.is_white_space a = false /\
       last q = Some b /\ Home.is_white_space b = false /\
       Home.trim q = q).
Proof.
  unfold Home.handleSearchSubmit_begin. split.
  - intros Ht. rewrite decide_True; [done|]. unfold Home.trim.
    apply trim_start_all_space in Ht. by rewrite Ht.
  - intros Ht. destruct (trim_nonblank _ Ht) as (a & b & Hf & Ha & Hl & Hb).
    exists (Home.trim (Home.searchTerm s)), a, b.
    rewrite decide_False by (intros E; by rewrite E in Hf).
    repeat split; try done. by eapply trim_of_trimmed.
Qed.

(** A term of two no-break spaces and a line separator is blank; a term
    with a no-break space on either side is sent without them. *)
Lemma search_submits_trimmed_term_witness :
  Home.handleSearchSubmit_begin (Home.setSearchTerm [160; 160; 8232]%N Home.initial) = None /\
  exists q a b,
    Home.handleSearchSubmit_begin
      (Home.setSearchTerm ([160] ++ Js.units " black hole" ++ [12288; 10])%N Home.initial)
      = Some (q, Home.setErr ""
                   (Home.setLoading true
                      (Home.setSearchTerm ([160] ++ Js.units " black hole" ++ [12288; 10])%N
                         Home.initial))) /\
    q = Js.units "black hole" /\
    head q = Some a /\ last q = Some b.
Proof.
  destruct (search_submits_trimmed_term
              (Home.setSearchTerm [160; 160; 8232]%N Home.initial)) as [Hblank _].
  destruct (search_submits_trimmed_term
              (Home.setSearchTerm ([160] ++ Js.units " black hole" ++ [12288; 10])%N
                 Home.initial)) as [_ Hsent].
  destruct (Hsent eq_refl) as (q & a & b & H1 & H2 & H3 & _ & H4 & _).
  exact (conj (Hblank eq_refl)
           (ex_intro _ q (ex_intro _ a (ex_intro _ b (conj H1 (conj H2 (conj H3 H4))))))).
Defined.

(* ===================================================================== *)
(** * Whole fetch operations *)
(* ===================================================================== *)

(** X18. The fetch operations of the Home and EPIC pages write the error
    string in two places only: the code before the [await] clears it
    (and turns loading on), and a failure sets the message. A success,
    in whatever state it arrives, leaves the error string as it finds it
    and turns loading off: these pages have no guard by recency, so a
    success shows no error only if no other operation has failed since
    the error was last cleared. The free-text search then shows at most
    18 entries, all of them entries of the response, and EPIC the first
    item of the new list. *)
Theorem success_leaves_error_as_found
    (random : nat -> Q) (results : list (list Home.HomeData)) (items : list Home.HomeData)
    (l : list Epic.EpicPageData) (h : Home.State) (e : Epic.State) :
  Js.unit_interval random ->
  (exists h',
      Js.run_async (Home.loadRandom_resume random (Js.Fulfilled results)) h
        = Some (Js.Normal tt, h') /\
      Home.err h' = Home.err h /\ Home.loading h' = false) /\
  (exists h',
      Js.run_async (Home.surpriseMe_resume random (Js.Fulfilled results)) h
        = Some (Js.Normal tt, h') /\
      Home.err h' = Home.err h /\ Home.loading h' = false) /\
  (exists h',
      Js.run_async (Home.handleSearchSubmit_resume random (Js.Fulfilled items)) h
        = Some (Js.Normal tt, h') /\
      Home.err h' = Home.err h /\ Home.loading h' = false /\
      (length (Home.shown h') <= 18)%nat /\
      Forall (fun x => x ∈ items) (Home.shown h')) /\
  (exists e',
      Js.run_async (Epic.fetchData_resume (Js.Fulfilled l)) e = Some (Js.Normal tt, e') /\
      Epic.error e' = Epic.error e /\ Epic.loading e' = false /\
      Epic.view e' = match l with [] => Epic.Empty | x :: _ => Epic.Detail x end) /\
  (Home.err (Home.loadRandom_begin h) = "" /\
   Home.loading (Home.loadRandom_begin h) = true) /\
  (forall topics h1, Home.surpriseMe_begin random h = Some (topics, h1) ->
     Home.err h1 = "" /\ Home.loading h1 = true) /\
  (forall q h1, Home.handleSearchSubmit_begin h = Some (q, h1) ->
     Home.err h1 = "" /\ Home.loading h1 = true) /\
  (Epic.error (Epic.fetchData_begin e) = "" /\
   Epic.loading (Epic.fetchData_begin e) = true).
Proof.
  intros Hr. repeat apply conj; try done.
  - destruct (Home_merge_fulfilled random results h Home.loadRandom_error Hr)
      as (m & k' & _ & Hrun).
    eexists. split; [exact Hrun|]. done.
  - destruct (Home_merge_fulfilled random results h Home.surpriseMe_error Hr)
      as (m & k' & _ & Hrun).
    eexists. split; [exact Hrun|]. done.
  - destruct (Home_search_fulfilled random items h Hr) as (m & k' & Hp & Hrun).
    eexists. split; [exact Hrun|]. simpl. split; [done|]. split; [done|].
    split; [rewrite length_take; lia|].
    apply Forall_forall. intros x Hx%subseteq_take. by rewrite <- Hp.
  - eexists. split; [apply Epic_fetchData_fulfilled|]. simpl. split; [done|]. split; [done|].
    by destruct l.
  - intros topics h1. unfold Home.surpriseMe_begin.
    destruct (Home.pickN _ _ _ _) as [[t k]|]; [|done]. by intros [= _ <-].
  - intros q h1. unfold Home.handleSearchSubmit_begin. case_decide; [done|].
    by intros [= _ <-].
Qed.

(** A search fails while the initial load is in flight; the load then
    succeeds and its entries are shown under the message of the search. *)
Lemma success_leaves_error_as_found_witness :
  Js.unit_interval half /\
  exists h1 h2,
    Js.run_async (Home.handleSearchSubmit_resume half Js.Rejected)
      (Home.loadRandom_begin Home.initial) = Some (Js.Normal tt, h1) /\
    Js.run_async (Home.loadRandom_resume half (Js.Fulfilled [[entryA]])) h1
      = Some (Js.Normal tt, h2) /\
    Home.err h2 = Home.search_error /\ Home.loading h2 = false.
Proof.
  assert (H : Js.unit_interval half) by (intros k; unfold half, Qle, Qlt; simpl; lia).
  destruct (proj1 (success_leaves_error_as_found half [[entryA]] [] [] 
              (Home.setLoading false
                 (Home.setErr Home.search_error (Home.loadRandom_begin Home.initial)))
              Epic.initial H))
    as (h2 & H1 & H2 & H3).
  exact (conj H (ex_intro _ _ (ex_intro _ h2 (conj eq_refl (conj H1 (conj H2 H3)))))).
Defined.

(** X19. The APOD page after its fetch. On success the record is stored
    and shown: an image under its high-definition address when the
    record has one, else under its standard address; a video under its
    standard address. On failure the stored record stays, so the first
    load shows the no-data state, and the fixed message is set. Either
    way loading ends. *)
Theorem apod_fetch_outcomes (a : Apod.State) (res : Apod.ApodPageData) :
  (exists a',
      Js.run_async (Apod.fetchData_resume (Js.Fulfilled res)) (Apod.fetchData_begin a)
        = Some (Js.Normal tt, a') /\
      Apod.data a' = Some res /\ Apod.error a' = "" /\ Apod.loading a' = false /\
      Apod.view a' =
        match Apod.media_type res, Apod.hdurl res with
        | Apod.image, Some hd => Apod.ImageLink hd
        | Apod.image, None => Apod.ImageLink (Apod.url res)
        | Apod.video, _ => Apod.VideoFrame (Apod.url res)
        end) /\
  (exists a',
      Js.run_async (Apod.fetchData_resume Js.Rejected) (Apod.fetchData_begin a)
        = Some (Js.Normal tt, a') /\
      Apod.data a' = Apod.data a /\ Apod.error a' = Apod.fetch_error /\
      Apod.loading a' = false /\
      (Apod.data a = None -> Apod.view a' = Apod.NoData)).
Proof.
  split.
  - eexists. split; [reflexivity|]. simpl. repeat split.
    unfold Apod.view. simpl. by destruct (Apod.media_type res), (Apod.hdurl res).
  - eexists. split; [reflexivity|]. simpl. repeat split.
    intros Hd. unfold Apod.view. simpl. by rewrite Hd.
Qed.

(* ===================================================================== *)
(** * Further properties of the EPIC page *)
(* ===================================================================== *)

Lemma split_nonempty (c : ascii) (s : string) : Epic.split c s ≠ [].
Proof.
  destruct s as [|a s]; [done|]. cbn [Epic.split]. case_decide; [done|].
  by destruct (Epic.split c s).
Qed.

(** X20. [split] and [join] are inverse: joining the segments of a string
    with the separator gives the string back. The segments hold no
    separator, and there is one more segment than there are separators
    in the string; a string without separator is its own single segment. *)
Theorem split_join_round_trip (c : ascii) (s : string) :
  join c (Epic.split c s) = s /\
  Forall (fun seg => occurrences c seg = 0%nat) (Epic.split c s) /\
  length (Epic.split c s) = S (occurrences c s) /\
  (occurrences c s = 0%nat -> Epic.split c s = [s]).
Proof.
  induction s as [|a s (IHj & IHf & IHl & IH0)].
  - repeat split; try done. by repeat constructor.
  - cbn [Epic.split occurrences]. case_decide as Hac.
    + subst a. repeat split.
      * cbn [join]. pose proof (split_nonempty c s).
        destruct (Epic.split c s) as [|seg segs] eqn:Hsp; [done|]. by rewrite IHj.
      * by constructor.
      * simpl. by rewrite IHl.
      * discriminate.
    + pose proof (split_nonempty c s).
      destruct (Epic.split c s) as [|seg segs] eqn:Hsp; [done|].
      apply Forall_cons in IHf as [Hseg Hsegs]. repeat split.
      * rewrite <- IHj. cbn [join]. by destruct segs.
      * constructor; [|done]. simpl. by rewrite decide_False.
      * simpl in *. done.
      * simpl. intros H0. specialize (IH0 H0). by injection IH0 as -> ->.
Qed.

Lemma surprise_in_range (random : nat -> Q) (s : Epic.State) :
  Js.unit_interval random -> Epic.hasData s = true ->
  0 <= Epic.index (Epic.surprise random s) < Z.of_nat (length (Epic.data s)).
Proof.
  intros Hr Hd. unfold Epic.surprise. rewrite Hd. simpl.
  destruct (Hr (Epic.rng s)) as [H0 H1].
  apply floor_mul_range; [done|done|].
  unfold Epic.hasData in Hd. apply bool_decide_eq_true in Hd. lia.
Qed.

Lemma hasData_false (s : Epic.State) : Epic.hasData s = false -> Epic.data s = [].
Proof.
  unfold Epic.hasData. intros Hd%bool_decide_eq_false.
  destruct (Epic.data s); [done|]. simpl in Hd. lia.
Qed.

Lemma epic_perform_index_ok (random : nat -> Q) (a : EpicAction) (s : Epic.State) :
  Js.unit_interval random -> index_ok s ->
  exists s', epic_perform random a s = Some s' /\ index_ok s'.
Proof.
  intros Hr Hok.
  assert (Hin : Epic.hasData s = true ->
            0 <= Epic.index s < Z.of_nat (length (Epic.data s))).
  { intros Hd. destruct Hok as [Hnil|Hok]; [|done].
    unfold Epic.hasData in Hd. rewrite Hnil in Hd. done. }
  assert (Hprev : index_ok (Epic.prev s)).
  { unfold Epic.prev. destruct (Epic.hasData s) eqn:Hd; [|done].
    right. simpl. destruct (rem_previous _ _ (Hin eq_refl)) as [-> _].
    apply Z.mod_pos_bound. specialize (Hin eq_refl). lia. }
  assert (Hnext : index_ok (Epic.next s)).
  { unfold Epic.next. destruct (Epic.hasData s) eqn:Hd; [|done].
    right. simpl. destruct (rem_next _ _ (Hin eq_refl)) as [-> _].
    apply Z.mod_pos_bound. specialize (Hin eq_refl). lia. }
  destruct a as [| | |i|k| |o]; simpl.
  - by eexists.
  - by eexists.
  - eexists. split; [done|]. destruct (Epic.hasData s) eqn:Hd.
    + right. pose proof (surprise_in_range random s Hr Hd) as Hs.
      unfold Epic.surprise in *. rewrite Hd in *. done.
    + unfold Epic.surprise. by rewrite Hd.
  - eexists. split; [done|]. unfold Epic.thumbnailClick.
    destruct (Epic.loading s); [done|]. case_decide; [|done]. right. simpl. lia.
  - eexists. split; [done|]. by destruct k.
  - eexists. split; [done|]. done.
  - destruct o as [l|].
    + rewrite Epic_fetchData_fulfilled. eexists. split; [done|].
      unfold index_ok. simpl. destruct l; [by left|right; simpl; lia].
    + rewrite Epic_fetchData_rejected. eexists. split; [done|]. done.
Qed.

(** X21. Whatever the user does on the EPIC page (previous, next,
    surprise, thumbnails, arrow keys, refresh) and whatever the feed
    answers, every handler completes and, while a list is on display,
    the index is one of its indices: the detail view always has an item
    to show and never reads the caption of an undefined one. *)
Theorem epic_index_stays_in_range
    (random : nat -> Q) (acts : list EpicAction) (s : Epic.State) :
  Js.unit_interval random ->
  index_ok s ->
  exists s',
    epic_perform_all random acts s = Some s' /\
    index_ok s' /\
    Epic.view s' ≠ Epic.DetailThrows /\
    (Epic.data s' ≠ [] -> is_Some (Epic.current s')).
Proof.
  intros Hr. revert s. induction acts as [|a acts IH]; intros s Hok.
  - exists s. split; [done|]. split; [done|].
    assert (Hcur : Epic.data s ≠ [] -> is_Some (Epic.current s)).
    { intros Hne. destruct Hok as [?|Hok]; [done|]. unfold Epic.current, Epic.hasData.
      rewrite bool_decide_true by (destruct (Epic.data s); [done|simpl; lia]).
      by apply index_in_range. }
    split; [|done]. unfold Epic.view. destruct (Epic.loading s); [done|].
    destruct (Epic.hasData s) eqn:Hd; [|done].
    destruct Hcur as [c Hc]; [|by rewrite Hc].
    intros Hnil. unfold Epic.hasData in Hd. by rewrite Hnil in Hd.
  - destruct (epic_perform_index_ok random a s Hr Hok) as (s1 & Hs1 & Hok1).
    destruct (IH s1 Hok1) as (s' & Hrun & Hrest).
    exists s'. split; [|done]. simpl. by rewrite Hs1.
Qed.

Lemma epic_index_stays_in_range_witness :
  Js.unit_interval half /\ index_ok Epic.initial /\
  exists s',
    epic_perform_all half
      [EFetch; ESettled (Js.Fulfilled [epic1; epic2]); EPrev; ESurprise; EThumbnail 1;
       EPress Epic.ArrowRight] Epic.initial = Some s' /\
    Epic.view s' ≠ Epic.DetailThrows.
Proof.
  assert (H : Js.unit_interval half) by (intros k; unfold half, Qle, Qlt; simpl; lia).
  assert (H0 : index_ok Epic.initial) by (by left).
  destruct (epic_index_stays_in_range half
              [EFetch; ESettled (Js.Fulfilled [epic1; epic2]); EPrev; ESurprise;
               EThumbnail 1; EPress Epic.ArrowRight] Epic.initial H H0)
    as (s' & H1 & _ & H2 & _).
  exact (conj H (conj H0 (ex_intro _ s' (conj H1 H2)))).
Defined.


Lemma split_free (c : ascii) (s : string) :
  occurrences c s = 0%nat -> Epic.split c s = [s].
Proof.
  induction s as [|a s IH]; [done|]. cbn [Epic.split occurrences].
  case_decide; [discriminate|]. rewrite Nat.add_0_l. intros H0. by rewrite IH.
Qed.

Lemma split_free_then_sep (c : ascii) (s t : string) :
  occurrences c s = 0%nat -> Epic.split c (s +:+ String c t) = s :: Epic.split c t.
Proof.
  induction s as [|a s IH].
  - intros _. simpl. by rewrite decide_True.
  - cbn [occurrences]. case_decide; [discriminate|]. rewrite Nat.add_0_l. intros H0.
    rewrite app_cons. cbn [Epic.split]. rewrite decide_False by done. by rewrite IH.
Qed.

(** X22. The URL builder does not check the date. For a date of ASCII
    characters: when its first ten characters hold no hyphen, they are
    taken whole as the year and the month and day segments are the text
    "undefined"; when they hold one hyphen, only the day segment is.
    Nothing is thrown. *)
Theorem buildEpicUrl_of_short_date (item : Epic.EpicPageData) (y m : string) :
  all_ascii (Epic.date item) = true ->
  occurrences "-" y = 0%nat -> occurrences "-" m = 0%nat ->
  (String.substring 0 10 (Epic.date item) = y ->
     Epic.buildEpicUrl item =
       "https://epic.gsfc.nasa.gov/archive/natural/" +:+ y +:+ "/undefined/undefined/png/"
         +:+ Epic.image item +:+ ".png") /\
  (String.substring 0 10 (Epic.date item) = y +:+ "-" +:+ m ->
     Epic.buildEpicUrl item =
       "https://epic.gsfc.nasa.gov/archive/natural/" +:+ y +:+ "/" +:+ m
         +:+ "/undefined/png/" +:+ Epic.image item +:+ ".png").
Proof.
  intros _ Hy Hm. unfold Epic.buildEpicUrl. split; intros ->.
  - by rewrite (split_free _ _ Hy).
  - change (y +:+ "-" +:+ m) with (y +:+ String "-" m).
    by rewrite (split_free_then_sep _ _ _ Hy), (split_free _ _ Hm).
Qed.

Lemma buildEpicUrl_of_short_date_witness :
  all_ascii "2024-03" = true /\
  Epic.buildEpicUrl {| Epic.caption := ""; Epic.date := "2024-03"; Epic.image := "x";
                       Epic.identifier := "" |}
  = "https://epic.gsfc.nasa.gov/archive/natural/2024/03/undefined/png/x.png".
Proof.
  exact (conj eq_refl
           (proj2 (buildEpicUrl_of_short_date
                     {| Epic.caption := ""; Epic.date := "2024-03"; Epic.image := "x";
                        Epic.identifier := "" |} "2024" "03" eq_refl eq_refl eq_refl)
              eq_refl)).
Defined.

(** X23. The EPIC page has no guard against responses that arrive out of
    order: of two refreshes in flight, the list shown in the end is the
    one of the response that arrives last. A failure that arrives after
    a success leaves the list of the success on display under the error
    message, and a success that arrives after a failure replaces the
    list but leaves the message of the failure in place. *)
Theorem epic_applies_responses_in_arrival_order
    (random : nat -> Q) (e : Epic.State) (l1 l2 : list Epic.EpicPageData) :
  (exists e',
      epic_perform_all random
        [EFetch; EFetch; ESettled (Js.Fulfilled l1); ESettled (Js.Fulfilled l2)] e = Some e' /\
      Epic.data e' = l2 /\ Epic.index e' = 0 /\ Epic.error e' = "") /\
  (exists e',
      epic_perform_all random
        [EFetch; EFetch; ESettled (Js.Fulfilled l1); ESettled Js.Rejected] e = Some e' /\
      Epic.data e' = l1 /\ Epic.error e' = Epic.fetch_error /\ Epic.loading e' = false) /\
  (exists e',
      epic_perform_all random
        [EFetch; EFetch; ESettled Js.Rejected; ESettled (Js.Fulfilled l1)] e = Some e' /\
      Epic.data e' = l1 /\ Epic.error e' = Epic.fetch_error /\ Epic.loading e' = false).
Proof. repeat split; eexists; (split; [reflexivity|done]). Qed.
